(** * shacl2code: the model-construction stage ([model.py])

    A shallow embedding of [src/shacl2code/model.py] and the properties
    of its intermediate representation.

    Modelling conventions.
    - A Python [str] is a [string]; RDF terms ([URIRef], [Literal]) are
      [str] subclasses and are represented by their string form, so
      [str(term)] is the identity.  A term is falsy when it is empty
      or when it is a literal whose Python value is falsy (the typed
      literals 0 and false); which terms are such literals is a
      parameter, [falsy_value].  Terms with the same text are the same
      term.
    - The [rdflib] graph is a list of triples; [subjects], [objects] and
      [value] enumerate it in list order.  Iteration over the Python
      [set] [class_iris] goes through an arbitrary order [set_iter].
    - The namespace context ([context.compact]) and the builtin [int]
      are parameters of the construction.
    - [Model.__init__] either returns the model, raises, or (its last
      loop) runs out of fuel. *)

From Equations Require Import Equations.
From Stdlib Require Import Ascii String.
From stdpp Require Import gmap strings list sorting.


(** ** Longest common prefix *)

(** The body of the [for idx in range(len(p1))] loop of [common_prefix],
    over the indices still to visit. *)
Fixpoint scan (idxs : list nat) (p1 p2 : string) : string :=
  match idxs with
  | [] => p1
  | idx :: rest =>
      if decide (String.length p2 ≤ idx)%nat then p2
      else if decide (String.get idx p1 ≠ String.get idx p2)
           then String.substring 0 idx p2
           else scan rest p1 p2
  end.

(** What the loop computes on two strings. *)
Definition merge (p1 p2 : string) : string :=
  scan (seq 0 (String.length p1)) p1 p2.

(** [common_prefix] over its argument tuple [s] *)
Equations? common_prefix (s : list string) : string by wf (length s) lt :=
  common_prefix [] := "";
  common_prefix [x] := x;
  common_prefix (x :: y :: r) :=
    merge (common_prefix (take (length (x :: y :: r) / 2) (x :: y :: r)))
          (common_prefix (drop (length (x :: y :: r) / 2) (x :: y :: r))).
Proof.
  - rewrite length_take. apply Nat.min_lt_iff. left.
    apply Nat.div_lt; simpl; lia.
  - rewrite length_drop.
    assert (0 < length (x :: y :: r) / 2).
    { apply Nat.div_str_pos. simpl. lia. }
    simpl in *. lia.
Qed.

(** [remove_common_prefix] of [val] against the tuple [cmp] *)
Definition remove_common_prefix (val : string) (cmp : list string) : string :=
  let prefix := common_prefix (val :: cmp) in
  String.substring (String.length prefix)
                   (String.length val - String.length prefix) val.

(** The two-string longest common prefix, by structural recursion. *)
Fixpoint lcp (a b : string) : string :=
  match a, b with
  | String c a', String d b' =>
      if decide (c = d) then String c (lcp a' b') else ""
  | _, _ => ""
  end.

(** Linear left-to-right pairwise reduction. *)
Definition lcp_fold (x : string) (r : list string) : string :=
  foldl lcp x r.

(** ** The graph query facade

    A graph is the list of its triples; the three queries enumerate it
    in list order, and [value] is the first object found. *)

Record Triple := mkTriple { subj : string; pred : string; obj : string }.

#[global] Instance Triple_eq_dec : EqDecision Triple.
Proof. solve_decision. Defined.

Definition Graph := list Triple.

Definition subjects (g : Graph) (p o : string) : list string :=
  subj <$> filter (λ t, pred t = p ∧ obj t = o) g.

Definition objects (g : Graph) (s p : string) : list string :=
  obj <$> filter (λ t, subj t = s ∧ pred t = p) g.

Definition value (g : Graph) (s p : string) : option string :=
  head (objects g s p).

(** Truthiness of an optional term, as [if x := value(...)] and [if not v]
    test it.  [None] is falsy.  A term is a [str], falsy when empty; an
    rdflib [Literal] that has a Python value is as true as that value,
    so the typed literals 0 and false are falsy though their text is not
    empty: [falsy_value r] tells whether the term written [r] is such a
    literal. *)
Definition truthy (falsy_value : string → bool) (v : option string)
  : option string :=
  match v with
  | Some r =>
      if decide (r = "") then None
      else if falsy_value r then None
      else Some r
  | None => None
  end.

(** The vocabulary. *)
Module RDF.
Definition type := "http://www.w3.org/1999/02/22-rdf-syntax-ns#type".
End RDF.

Module RDFS.
Definition label := "http://www.w3.org/2000/01/rdf-schema#label".
Definition comment := "http://www.w3.org/2000/01/rdf-schema#comment".
Definition subClassOf := "http://www.w3.org/2000/01/rdf-schema#subClassOf".
Definition range := "http://www.w3.org/2000/01/rdf-schema#range".
End RDFS.

Module OWL.
Definition Class := "http://www.w3.org/2002/07/owl#Class".
Definition NamedIndividual := "http://www.w3.org/2002/07/owl#NamedIndividual".
End OWL.

Module SH.
Definition property := "http://www.w3.org/ns/shacl#property".
Definition path := "http://www.w3.org/ns/shacl#path".
Definition name := "http://www.w3.org/ns/shacl#name".
Definition maxCount := "http://www.w3.org/ns/shacl#maxCount".
Definition minCount := "http://www.w3.org/ns/shacl#minCount".
Definition class := "http://www.w3.org/ns/shacl#class".
Definition datatype := "http://www.w3.org/ns/shacl#datatype".
Definition pattern := "http://www.w3.org/ns/shacl#pattern".
End SH.

Module SPDXS.
Definition referenceable := "https://rdf.spdx.org/ns/schema#referenceable".
Definition idPropertyName := "https://rdf.spdx.org/ns/schema#idPropertyName".
End SPDXS.

(** ** The data classes *)

Module EnumValue.
Record t := mk { _id : string; varname : string; comment : string }.
End EnumValue.

Module Enum.
Record t := mk {
  _id : string;
  clsname : string;
  values : list EnumValue.t;
  comment : string }.
End Enum.

Module Property.
Record t := mk {
  path : string;
  varname : string;
  comment : string;
  max_count : option Z;
  min_count : option Z;
  enum_id : string;
  class_id : string;
  datatype : string;
  pattern : string }.

(** Attribute assignment on an existing record. *)
Definition set_enum_id (p : t) (v : string) : t :=
  mk (path p) (varname p) (comment p) (max_count p) (min_count p)
     v (class_id p) (datatype p) (pattern p).
Definition set_class_id (p : t) (v : string) : t :=
  mk (path p) (varname p) (comment p) (max_count p) (min_count p)
     (enum_id p) v (datatype p) (pattern p).
Definition set_datatype (p : t) (v : string) : t :=
  mk (path p) (varname p) (comment p) (max_count p) (min_count p)
     (enum_id p) (class_id p) v (pattern p).
Definition set_pattern (p : t) (v : string) : t :=
  mk (path p) (varname p) (comment p) (max_count p) (min_count p)
     (enum_id p) (class_id p) (datatype p) v.
End Property.

Module Class.
Record t := mk {
  _id : string;
  clsname : string;
  parent_ids : list string;
  derived_ids : list string;
  properties : list Property.t;
  comment : string;
  id_property : option string;
  refable : string }.

Definition set_derived_ids (c : t) (v : list string) : t :=
  mk (_id c) (clsname c) (parent_ids c) v (properties c) (comment c)
     (id_property c) (refable c).
Definition set_properties (c : t) (v : list Property.t) : t :=
  mk (_id c) (clsname c) (parent_ids c) (derived_ids c) v (comment c)
     (id_property c) (refable c).
End Class.

(** ** Outcomes of the construction *)

Inductive exn :=
| UnknownReferenceable (cls refable : string)
| UnknownClassRestriction (prop range_id : string)
| MissingRange (prop : string)
| TypeError
| ValueError
| KeyError (key : string).

Definition is_ModelException (e : exn) : bool :=
  match e with
  | UnknownReferenceable _ _ | UnknownClassRestriction _ _ | MissingRange _ => true
  | _ => false
  end.

Inductive outcome (A : Type) :=
| Return (a : A)
| Raise (e : exn)
| OutOfFuel.
Arguments Return {A} a.
Arguments Raise {A} e.
Arguments OutOfFuel {A}.

#[global] Instance outcome_bind : MBind outcome := λ A B k m,
  match m with
  | Return a => k a
  | Raise e => Raise e
  | OutOfFuel => OutOfFuel
  end.

(** A [for] loop whose body may raise, threading the loop state. *)
Fixpoint for_each {A S} (body : S → A → outcome S) (l : list A) (st : S)
  : outcome S :=
  match l with
  | [] => Return st
  | a :: l' => st' ← body st a; for_each body l' st'
  end.

Fixpoint replace_char (old new : Ascii.ascii) (s : string) : string :=
  match s with
  | "" => ""
  | String c s' =>
      String (if decide (c = old) then new else c) (replace_char old new s')
  end.

(** Ascending order on a string key, as used by [list.sort(key=...)]. *)
Definition le_by {A} (key : A → string) : relation A :=
  λ a b, String.le (key a) (key b).

#[global] Instance le_by_dec {A} (key : A → string) : RelDecision (le_by key).
Proof. intros a b. unfold le_by. apply _. Defined.

Definition valid_refable : list string :=
  ["no"; "local"; "optional"; "yes"; "always"].

Module Model.
Record t := mk {
  compact_ids : gmap string string;
  enums : list Enum.t;
  classes : list Class.t }.
End Model.

(** ** The dependency-ordering loop *)

(** [while tmp_classes: ...], one unit of fuel per iteration. *)
Fixpoint order_loop (fuel : nat) (tmp_classes : list Class.t)
    (done_ids : gset string) (classes : list Class.t)
  : outcome (list Class.t) :=
  match tmp_classes with
  | [] => Return classes
  | c :: tmp_classes =>
      match fuel with
      | 0 => OutOfFuel
      | S fuel =>
          if forallb (λ p, bool_decide (p ∈ done_ids)) (Class.parent_ids c)
          then order_loop fuel tmp_classes ({[Class._id c]} ∪ done_ids)
                          (classes ++ [c])
          else order_loop fuel (tmp_classes ++ [c]) done_ids classes
      end
  end.

(** ** Model construction *)

Section Construction.

(** Which terms are literals with a falsy value, [context.compact],
    the builtin [int], and the iteration order of a Python [set]. *)
Context (falsy_value : string → bool)
        (compact : string → string)
        (py_int : string → option Z)
        (set_iter : gset string → list string).

Definition get_compact_id (compact_ids : gmap string string)
    (_id : string) (fallback : option string)
  : string * gmap string string :=
  let compact_ids :=
    if decide (_id ∉ dom compact_ids)
    then <[_id := compact _id]> compact_ids
    else compact_ids in
  match fallback with
  | Some fb =>
      if decide (compact_ids !!! _id = _id) then (fb, compact_ids)
      else (compact_ids !!! _id, compact_ids)
  | None => (compact_ids !!! _id, compact_ids)
  end.

Definition get_class_name (compact_ids : gmap string string) (c : string)
  : string * gmap string string :=
  let '(n, compact_ids) := get_compact_id compact_ids c None in
  (replace_char ":"%char "_"%char n, compact_ids).

(** *** Enumerations and the split of the declared classes *)

Definition enum_values_of (g : Graph) (cls_iri : string)
  : list EnumValue.t :=
  (λ value_iri,
     EnumValue.mk value_iri
       (default (remove_common_prefix value_iri [cls_iri])
                (value g value_iri RDFS.label))
       (default "" (value g value_iri RDFS.comment)))
  <$> filter (λ value_iri,
                mkTriple value_iri RDF.type OWL.NamedIndividual ∈ g)
             (subjects g RDF.type cls_iri).

Record Split := mkSplit {
  sp_compact_ids : gmap string string;
  sp_enums : list Enum.t;
  enum_iris : gset string;
  class_iris : gset string }.

Definition classify_step (g : Graph) (st : Split) (cls_iri : string)
  : Split :=
  match enum_values_of g cls_iri with
  | [] =>
      mkSplit (sp_compact_ids st) (sp_enums st) (enum_iris st)
              ({[cls_iri]} ∪ class_iris st)
  | (_ :: _) as enum_values =>
      let enum_values := merge_sort (le_by EnumValue._id) enum_values in
      let '(clsname, compact_ids) :=
        get_class_name (sp_compact_ids st) cls_iri in
      let e := Enum.mk cls_iri clsname enum_values
                       (default "" (value g cls_iri RDFS.comment)) in
      mkSplit compact_ids (sp_enums st ++ [e])
              ({[cls_iri]} ∪ enum_iris st) (class_iris st)
  end.

Definition classify (g : Graph) : Split :=
  foldl (classify_step g) (mkSplit ∅ [] ∅ ∅) (subjects g RDF.type OWL.Class).

(** *** Properties *)

Definition int_val (v : option string) : outcome (option Z) :=
  match truthy falsy_value v with
  | None => Return None
  | Some s =>
      match py_int s with
      | Some n => Return (Some n)
      | None => Raise ValueError
      end
  end.

Definition str_val (v : option string) : option string := v.

Definition resolve_range (g : Graph) (enum_iris class_iris : gset string)
    (obj_prop prop : string) (p : Property.t) : outcome Property.t :=
  match truthy falsy_value (value g obj_prop SH.class) with
  | Some range_id =>
      if decide (range_id ∈ enum_iris)
      then Return (Property.set_enum_id p range_id)
      else if decide (range_id ∈ class_iris)
      then Return (Property.set_class_id p range_id)
      else Raise (UnknownClassRestriction prop range_id)
  | None =>
      match truthy falsy_value (value g obj_prop SH.datatype) with
      | Some range_id =>
          let p := Property.set_datatype p range_id in
          match truthy falsy_value (value g obj_prop SH.pattern) with
          | Some pattern => Return (Property.set_pattern p pattern)
          | None => Return p
          end
      | None =>
          match truthy falsy_value (value g prop RDFS.range) with
          | Some range_id =>
              if decide (range_id ∈ enum_iris)
              then Return (Property.set_enum_id p range_id)
              else if decide (range_id ∈ class_iris)
              then Return (Property.set_class_id p range_id)
              else Return (Property.set_datatype p range_id)
          | None => Raise (MissingRange prop)
          end
      end
  end.

(** One iteration of [for obj_prop in objects(cls_iri, SH.property)].
    A shape without [SH.path] makes [prop] [None], and
    [remove_common_prefix(None, cls_iri)] fails on [len(None)]. *)
Definition build_property (g : Graph) (enum_iris class_iris : gset string)
    (cls_iri : string) (st : list Property.t * gmap string string)
    (obj_prop : string)
  : outcome (list Property.t * gmap string string) :=
  let '(properties, compact_ids) := st in
  match value g obj_prop SH.path with
  | None => Raise TypeError
  | Some prop =>
      let '(dflt, compact_ids) :=
        get_compact_id compact_ids prop
          (Some (remove_common_prefix prop [cls_iri])) in
      max_count ← int_val (value g obj_prop SH.maxCount);
      min_count ← int_val (value g obj_prop SH.minCount);
      let p := Property.mk prop
                 (default dflt (value g obj_prop SH.name))
                 (default "" (value g prop RDFS.comment))
                 max_count min_count "" "" "" "" in
      p ← resolve_range g enum_iris class_iris obj_prop prop p;
      Return ((properties ++ [p]), compact_ids)
  end.

(** *** Classes *)

(** The loop state: the cache, [self.classes] (the records, by
    position) and [classes_by_iri] (an id to the position of its
    record, since both containers hold the same objects). *)
Record Built := mkBuilt {
  bl_compact_ids : gmap string string;
  bl_classes : list Class.t;
  classes_by_iri : gmap string nat }.

Definition build_class (g : Graph) (enum_iris class_iris : gset string)
    (st : Built) (cls_iri : string) : outcome Built :=
  let parent_ids :=
    filter (λ parent_iri, parent_iri ∈ class_iris)
           (objects g cls_iri RDFS.subClassOf) in
  let '(clsname, compact_ids) :=
    get_class_name (bl_compact_ids st) cls_iri in
  let c := Class.mk cls_iri clsname parent_ids [] []
             (default "" (value g cls_iri RDFS.comment))
             (str_val (value g cls_iri SPDXS.idPropertyName))
             (default "optional" (value g cls_iri SPDXS.referenceable)) in
  if decide (Class.refable c ∉ valid_refable)
  then Raise (UnknownReferenceable (Class._id c) (Class.refable c))
  else
    '(properties, compact_ids) ←
      for_each (build_property g enum_iris class_iris cls_iri)
               (objects g cls_iri SH.property) ([], compact_ids);
    let c := Class.set_properties c properties in
    Return (mkBuilt compact_ids (bl_classes st ++ [c])
                    (<[Class._id c := length (bl_classes st)]>
                       (classes_by_iri st))).

Definition build_classes (g : Graph) (sp : Split) : outcome Built :=
  for_each (build_class g (enum_iris sp) (class_iris sp))
           (set_iter (class_iris sp))
           (mkBuilt (sp_compact_ids sp) [] ∅).

(** *** Derived-class back links *)

(** [classes_by_iri[p].derived_ids.append(child)] on the shared
    records. *)
Definition add_derived (by_iri : gmap string nat) (child : string)
    (classes : list Class.t) (p : string) : outcome (list Class.t) :=
  match by_iri !! p with
  | None => Raise (KeyError p)
  | Some i =>
      Return (alter (λ d, Class.set_derived_ids d
                            (Class.derived_ids d ++ [child]))
                    i classes)
  end.

(** The outer loop reads only [_id] and [parent_ids], which the
    appends leave alone, so it runs over the records as they were. *)
Definition link_derived (by_iri : gmap string nat)
    (classes : list Class.t) : outcome (list Class.t) :=
  for_each (λ store c,
              for_each (add_derived by_iri (Class._id c))
                       (Class.parent_ids c) store)
           classes classes.

Definition sort_derived (c : Class.t) : Class.t :=
  Class.set_derived_ids c (merge_sort String.le (Class.derived_ids c)).

(** *** The constructor *)

(** Everything before the dependency-ordering loop: the cache, the
    sorted enums, and the sorted class list the loop starts from. *)
Definition prepare (g : Graph)
  : outcome (gmap string string * list Enum.t * list Class.t) :=
  let sp := classify g in
  b ← build_classes g sp;
  classes ← link_derived (classes_by_iri b) (bl_classes b);
  let classes := sort_derived <$> classes in
  let enums := merge_sort (le_by Enum._id) (sp_enums sp) in
  let classes := merge_sort (le_by Class._id) classes in
  Return (bl_compact_ids b, enums, classes).

Definition Model_init (fuel : nat) (g : Graph) : outcome Model.t :=
  '(compact_ids, enums, tmp_classes) ← prepare g;
  classes ← order_loop fuel tmp_classes ∅ [];
  Return (Model.mk compact_ids enums classes).

End Construction.

(** ** Vocabulary of the statements *)

(** [b] is listed as a parent by the record with id [a]. *)
Definition parent_rel (cs : list Class.t) (a b : string) : Prop :=
  ∃ c, c ∈ cs ∧ Class._id c = a ∧ b ∈ Class.parent_ids c.

(** The parent relation has a cycle; a class that lists itself is the
    cycle of length one. *)
Definition cyclic (cs : list Class.t) : Prop :=
  ∃ a, tc (parent_rel cs) a a.

(** Every parent id of every record is the id of a record at an
    earlier position. *)
Definition parents_first (l : list Class.t) : Prop :=
  ∀ i c p, l !! i = Some c → p ∈ Class.parent_ids c →
    ∃ j d, j < i ∧ l !! j = Some d ∧ Class._id d = p.

(** The test of the loop body: all parents are done. *)
Definition ready (done_ids : gset string) (c : Class.t) : Prop :=
  ∀ p, p ∈ Class.parent_ids c → p ∈ done_ids.

#[global] Instance ready_dec (done_ids : gset string) (c : Class.t) :
  Decision (ready done_ids c).
Proof.
  refine (cast_if (decide (Forall (λ p, p ∈ done_ids) (Class.parent_ids c))));
    unfold ready; by rewrite <- Forall_forall.
Defined.

(** Every cached name is the compaction of its key. *)
Definition cache_ok (compact : string → string)
    (compact_ids : gmap string string) : Prop :=
  ∀ k v, compact_ids !! k = Some v → v = compact k.

(** Exactly one of the three range fields is non-empty, and a pattern
    comes only with a datatype. *)
Definition one_range (p : Property.t) : Prop :=
  ((Property.enum_id p ≠ "" ∧ Property.class_id p = ""
                            ∧ Property.datatype p = "")
   ∨ (Property.enum_id p = "" ∧ Property.class_id p ≠ ""
                              ∧ Property.datatype p = "")
   ∨ (Property.enum_id p = "" ∧ Property.class_id p = ""
                              ∧ Property.datatype p ≠ ""))
  ∧ (Property.pattern p ≠ "" → Property.datatype p ≠ "").

(** No range field is set yet, as on a freshly created record. *)
Definition no_range (p : Property.t) : Prop :=
  Property.enum_id p = "" ∧ Property.class_id p = ""
  ∧ Property.datatype p = "" ∧ Property.pattern p = "".

(** The graph gives [s] a truthy [p]-value [r] (the first one found,
    not empty and not a literal with a falsy value), respectively no
    [p]-value or a falsy one. *)
Definition asserts (falsy_value : string → bool) (g : Graph)
    (s p r : string) : Prop :=
  value g s p = Some r ∧ r ≠ "" ∧ falsy_value r = false.

Definition asserts_none (falsy_value : string → bool) (g : Graph)
    (s p : string) : Prop :=
  value g s p = None
  ∨ ∃ r, value g s p = Some r ∧ (r = "" ∨ falsy_value r = true).

(** The pairs (child id, parent id) of a class list, in the order in
    which the back-link loops visit them. *)
Definition edges (cs : list Class.t) : list (string * string) :=
  c ← cs; (λ p, (Class._id c, p)) <$> Class.parent_ids c.

(** A record as the class-building loop leaves it. *)
Definition class_built (g : Graph) (class_iris : gset string) (c : Class.t)
  : Prop :=
  Class.parent_ids c
  = filter (λ parent_iri, parent_iri ∈ class_iris)
           (objects g (Class._id c) RDFS.subClassOf)
  ∧ Class.derived_ids c = []
  ∧ Class.refable c
    = default "optional" (value g (Class._id c) SPDXS.referenceable)
  ∧ Class.refable c ∈ valid_refable
  ∧ Forall one_range (Class.properties c).

(** The state of the back-link loops after the pairs [E] have been
    processed: records keep their position and every field but
    [derived_ids], which has gained the children of the processed pairs
    whose parent id maps to that position. *)
Definition linked (by_iri : gmap string nat) (store0 : list Class.t)
    (E : list (string * string)) (store : list Class.t) : Prop :=
  length store = length store0
  ∧ ∀ i d, store !! i = Some d →
      ∃ d0, store0 !! i = Some d0
            ∧ Class.set_derived_ids d [] = Class.set_derived_ids d0 []
            ∧ ∀ x, x ∈ Class.derived_ids d
                   ↔ x ∈ Class.derived_ids d0
                     ∨ ∃ p, (x, p) ∈ E ∧ by_iri !! p = Some i.

(** A finished record, and a finished class list, relative to the input
    graph and its structural-class ids. *)
Definition class_ok (g : Graph) (class_iris : gset string) (c : Class.t)
  : Prop :=
  Class.parent_ids c
  = filter (λ parent_iri, parent_iri ∈ class_iris)
           (objects g (Class._id c) RDFS.subClassOf)
  ∧ Class.refable c
    = default "optional" (value g (Class._id c) SPDXS.referenceable)
  ∧ Class.refable c ∈ valid_refable
  ∧ Forall one_range (Class.properties c)
  ∧ Sorted String.le (Class.derived_ids c).

Definition classes_ok (g : Graph) (class_iris : gset string)
    (cs : list Class.t) : Prop :=
  Class._id <$> cs ≡ₚ elements class_iris
  ∧ Forall (class_ok g class_iris) cs
  ∧ ∀ c d, c ∈ cs → d ∈ cs →
      (Class._id c ∈ Class.derived_ids d ↔ Class._id d ∈ Class.parent_ids c).

(** The parent relation of the input over its structural classes:
    [a] and [b] are structural classes and the graph declares [b] a
    superclass of [a]. *)
Definition structural_parent (compact : string → string) (g : Graph)
    (a b : string) : Prop :=
  a ∈ class_iris (classify compact g)
  ∧ b ∈ class_iris (classify compact g)
  ∧ mkTriple a RDFS.subClassOf b ∈ g.

Definition is_refable_error (e : exn) : Prop :=
  match e with
  | UnknownReferenceable _ _ => True
  | _ => False
  end.

(** ** Sample inputs *)

(** Terms written 0 or false are literals with a falsy value; a context
    that shortens nothing; an [int] that parses 0 and 1; the iteration
    order of [elements]. *)
Definition ex_falsy : string → bool :=
  λ s, bool_decide (s = "0") || bool_decide (s = "false").
Definition ex_compact : string → string := λ s, s.
Definition ex_int : string → option Z :=
  λ s, if decide (s = "0") then Some 0%Z
       else if decide (s = "1") then Some 1%Z
       else None.
Definition ex_iter : gset string → list string := elements.

(** An enumeration with two values, a class, a subclass with one
    property shape. *)
Definition graph_shapes : Graph :=
  [ mkTriple "ex:B" RDF.type OWL.Class;
    mkTriple "ex:A" RDF.type OWL.Class;
    mkTriple "ex:B" RDFS.subClassOf "ex:A";
    mkTriple "ex:Color" RDF.type OWL.Class;
    mkTriple "ex:red" RDF.type "ex:Color";
    mkTriple "ex:red" RDF.type OWL.NamedIndividual;
    mkTriple "ex:green" RDF.type "ex:Color";
    mkTriple "ex:green" RDF.type OWL.NamedIndividual;
    mkTriple "ex:B" SH.property "_:s1";
    mkTriple "_:s1" SH.path "ex:B/name";
    mkTriple "_:s1" SH.datatype "xsd:string" ].

(** Two classes, each the superclass of the other. *)
Definition graph_cycle : Graph :=
  [ mkTriple "ex:A" RDF.type OWL.Class;
    mkTriple "ex:B" RDF.type OWL.Class;
    mkTriple "ex:A" RDFS.subClassOf "ex:B";
    mkTriple "ex:B" RDFS.subClassOf "ex:A" ].

(** A class that is its own superclass. *)
Definition graph_self_parent : Graph :=
  [ mkTriple "ex:A" RDF.type OWL.Class;
    mkTriple "ex:A" RDFS.subClassOf "ex:A" ].

(** A shape whose class restriction is the empty term, next to a
    datatype restriction. *)
Definition graph_empty_restriction : Graph :=
  [ mkTriple "ex:A" RDF.type OWL.Class;
    mkTriple "ex:A" SH.property "_:s1";
    mkTriple "_:s1" SH.path "ex:A/p";
    mkTriple "_:s1" SH.class "";
    mkTriple "_:s1" SH.datatype "xsd:string" ].

(** A class with a valid (defaulted) referenceable value and a shape
    without any range. *)
Definition graph_missing_range : Graph :=
  [ mkTriple "ex:A" RDF.type OWL.Class;
    mkTriple "ex:A" SH.property "_:s1";
    mkTriple "_:s1" SH.path "ex:A/p" ].

(** A class whose referenceable value is outside the closed set. *)
Definition graph_bad_refable : Graph :=
  [ mkTriple "ex:A" RDF.type OWL.Class;
    mkTriple "ex:A" SPDXS.referenceable "maybe" ].

Definition returned {A} (dflt : A) (o : outcome A) : A :=
  match o with
  | Return a => a
  | _ => dflt
  end.

Definition model_shapes : Model.t :=
  returned (Model.mk ∅ [] [])
           (Model_init ex_falsy ex_compact ex_int ex_iter 2 graph_shapes).

Definition prepared_shapes
  : gmap string string * list Enum.t * list Class.t :=
  returned (∅, [], []) (prepare ex_falsy ex_compact ex_int ex_iter graph_shapes).

Definition prepared_cycle
  : gmap string string * list Enum.t * list Class.t :=
  returned (∅, [], []) (prepare ex_falsy ex_compact ex_int ex_iter graph_cycle).

Definition prepared_self_parent
  : gmap string string * list Enum.t * list Class.t :=
  returned (∅, [], []) (prepare ex_falsy ex_compact ex_int ex_iter graph_self_parent).

(** A shape with the counts 0 and 1. *)
Definition graph_counts : Graph :=
  [ mkTriple "ex:A" RDF.type OWL.Class;
    mkTriple "ex:A" SH.property "_:s1";
    mkTriple "_:s1" SH.path "ex:A/p";
    mkTriple "_:s1" SH.datatype "xsd:string";
    mkTriple "_:s1" SH.minCount "0";
    mkTriple "_:s1" SH.maxCount "1" ].

Definition model_counts : Model.t :=
  returned (Model.mk ∅ [] [])
           (Model_init ex_falsy ex_compact ex_int ex_iter 1 graph_counts).

(** A shape whose class restriction is the literal 0, next to a
    datatype restriction. *)
Definition graph_zero_restriction : Graph :=
  [ mkTriple "ex:A" RDF.type OWL.Class;
    mkTriple "ex:A" SH.property "_:s1";
    mkTriple "_:s1" SH.path "ex:A/p";
    mkTriple "_:s1" SH.class "0";
    mkTriple "_:s1" SH.datatype "xsd:string" ].

(** A shape whose only restriction is the class restriction 0. *)
Definition graph_zero_only : Graph :=
  [ mkTriple "ex:A" RDF.type OWL.Class;
    mkTriple "ex:A" SH.property "_:s1";
    mkTriple "_:s1" SH.path "ex:A/p";
    mkTriple "_:s1" SH.class "0" ].

Definition model_empty_restriction : Model.t :=
  returned (Model.mk ∅ [] [])
           (Model_init ex_falsy ex_compact ex_int ex_iter 1 graph_empty_restriction).

(** ** Vocabulary for the records' fields *)

(** The key [k] is in the cache, with its compaction. *)
Definition cached (compact : string → string)
    (compact_ids : gmap string string) (k : string) : Prop :=
  compact_ids !! k = Some (compact k).

(** The name a property gets when its shape has no [sh:name]. *)
Definition default_varname (compact : string → string)
    (cls_iri prop : string) : string :=
  if decide (compact prop = prop) then remove_common_prefix prop [cls_iri]
  else compact prop.

(** A property record with its range fields back at their defaults. *)
Definition without_range (p : Property.t) : Property.t :=
  Property.mk (Property.path p) (Property.varname p) (Property.comment p)
              (Property.max_count p) (Property.min_count p) "" "" "" "".

(** The property [p] is what the shape [s] of the class [cls_iri]
    determines: its fields outside the range, and its range as resolved
    from the freshly created record. *)
Definition shape_property (falsy_value : string → bool)
    (compact : string → string) (py_int : string → option Z) (g : Graph)
    (enum_iris class_iris : gset string) (cls_iri s : string)
    (p : Property.t) : Prop :=
  value g s SH.path = Some (Property.path p)
  ∧ Property.varname p
    = default (default_varname compact cls_iri (Property.path p))
              (value g s SH.name)
  ∧ Property.comment p = default "" (value g (Property.path p) RDFS.comment)
  ∧ int_val falsy_value py_int (value g s SH.maxCount)
    = Return (Property.max_count p)
  ∧ int_val falsy_value py_int (value g s SH.minCount)
    = Return (Property.min_count p)
  ∧ resolve_range falsy_value g enum_iris class_iris s (Property.path p)
                  (without_range p)
    = Return p.

(** The fields of a class record that come straight from the graph. *)
Definition class_described (falsy_value : string → bool)
    (compact : string → string) (py_int : string → option Z) (g : Graph)
    (enum_iris class_iris : gset string) (c : Class.t) : Prop :=
  Class.clsname c = replace_char ":" "_" (compact (Class._id c))
  ∧ Class.comment c = default "" (value g (Class._id c) RDFS.comment)
  ∧ Class.id_property c = value g (Class._id c) SPDXS.idPropertyName
  ∧ Forall2 (shape_property falsy_value compact py_int g enum_iris class_iris
                            (Class._id c))
            (objects g (Class._id c) SH.property) (Class.properties c).

Definition enum_described (compact : string → string) (g : Graph)
    (e : Enum.t) : Prop :=
  Enum.clsname e = replace_char ":" "_" (compact (Enum._id e))
  ∧ Enum.comment e = default "" (value g (Enum._id e) RDFS.comment)
  ∧ Enum.values e
    = merge_sort (le_by EnumValue._id) (enum_values_of g (Enum._id e))
  ∧ enum_values_of g (Enum._id e) ≠ [].

(** What in the shape [s] makes the construction raise [e]. *)
Definition shape_fault (falsy_value : string → bool)
    (py_int : string → option Z) (g : Graph)
    (enum_iris class_iris : gset string) (s : string) (e : exn) : Prop :=
  match e with
  | TypeError => value g s SH.path = None
  | ValueError =>
      ∃ v, (truthy falsy_value (value g s SH.maxCount) = Some v
            ∨ truthy falsy_value (value g s SH.minCount) = Some v)
           ∧ py_int v = None
  | UnknownClassRestriction prop r =>
      value g s SH.path = Some prop
      ∧ asserts falsy_value g s SH.class r ∧ (r ∉ enum_iris) ∧ (r ∉ class_iris)
  | MissingRange prop =>
      value g s SH.path = Some prop
      ∧ asserts_none falsy_value g s SH.class ∧ asserts_none falsy_value g s SH.datatype
      ∧ asserts_none falsy_value g prop RDFS.range
  | UnknownReferenceable _ _ | KeyError _ => False
  end.

(** A class whose only property shape has a name but no path. *)
Definition graph_no_path : Graph :=
  [ mkTriple "ex:A" RDF.type OWL.Class;
    mkTriple "ex:A" SH.property "_:s1";
    mkTriple "_:s1" SH.name "label";
    mkTriple "_:s1" SH.datatype "xsd:string" ].

(** The four range fields of a property record: enum id, class id,
    datatype, pattern. *)
Definition range_fields (p : Property.t)
  : string * string * string * string :=
  (Property.enum_id p, Property.class_id p, Property.datatype p,
   Property.pattern p).

(** The range of the property [p] is the one its shape [s] gives by
    precedence: a truthy class restriction, else a truthy datatype
    restriction (with the shape's pattern, if truthy), else a truthy
    range of the path; one of the three is there. *)
Definition range_by_precedence (falsy_value : string → bool) (g : Graph)
    (enum_iris class_iris : gset string) (s : string) (p : Property.t)
  : Prop :=
  value g s SH.path = Some (Property.path p)
  ∧ (∀ r, asserts falsy_value g s SH.class r →
       (r ∈ enum_iris ∧ range_fields p = (r, "", "", ""))
       ∨ ((r ∉ enum_iris) ∧ r ∈ class_iris
          ∧ range_fields p = ("", r, "", "")))
  ∧ (asserts_none falsy_value g s SH.class →
     ∀ r, asserts falsy_value g s SH.datatype r →
       range_fields p
       = ("", "", r, default "" (truthy falsy_value (value g s SH.pattern))))
  ∧ (asserts_none falsy_value g s SH.class →
     asserts_none falsy_value g s SH.datatype →
     ∀ r, asserts falsy_value g (Property.path p) RDFS.range r →
       (r ∈ enum_iris ∧ range_fields p = (r, "", "", ""))
       ∨ ((r ∉ enum_iris) ∧ r ∈ class_iris
          ∧ range_fields p = ("", r, "", ""))
       ∨ ((r ∉ enum_iris) ∧ (r ∉ class_iris)
          ∧ range_fields p = ("", "", r, "")))
  ∧ ¬ (asserts_none falsy_value g s SH.class
       ∧ asserts_none falsy_value g s SH.datatype
       ∧ asserts_none falsy_value g (Property.path p) RDFS.range).

(** * Properties *)

(** ** Longest common prefix *)

Section PrefixFacts.

Local Arguments String.append : simpl nomatch.

Lemma length_append (a b : string) :
  String.length (a +:+ b) = String.length a + String.length b.
Proof. induction a as [|c a IH]; simpl; [done | by rewrite IH]. Qed.

Lemma get_append_here (pre : string) (c : ascii) (a : string) :
  String.get (String.length pre) (pre +:+ String c a) = Some c.
Proof. induction pre as [|d pre IH]; simpl; [done | exact IH]. Qed.

Lemma substring_append_here (pre b : string) :
  String.substring 0 (String.length pre) (pre +:+ b) = pre.
Proof.
  induction pre as [|d pre IH]; simpl.
  - by destruct b.
  - by rewrite IH.
Qed.

Lemma append_nil_r (a : string) : a +:+ "" = a.
Proof. induction a as [|c a IH]; simpl; [done | by rewrite IH]. Qed.

Lemma append_assoc (a b c : string) : (a +:+ b) +:+ c = a +:+ (b +:+ c).
Proof. induction a as [|d a IH]; simpl; [done | by rewrite IH]. Qed.

(** The index loop, started after an agreed prefix [pre], extends it by
    the structural [lcp] of the two remainders. *)
Lemma scan_from (a : string) : ∀ pre b,
  scan (seq (String.length pre) (String.length a)) (pre +:+ a) (pre +:+ b)
  = pre +:+ lcp a b.
Proof.
  induction a as [|c a IH]; intros pre b; simpl.
  - done.
  - rewrite length_append. destruct b as [|d b]; simpl.
    + case_decide; [by rewrite !append_nil_r | lia].
    + case_decide; [lia |]. rewrite !get_append_here.
      destruct (decide (c = d)) as [->|Hcd].
      * case_decide; [done |].
        specialize (IH (pre +:+ String d "") b).
        rewrite length_append, !append_assoc in IH. simpl in IH.
        rewrite Nat.add_1_r in IH. exact IH.
      * case_decide; [| congruence].
        by rewrite substring_append_here, append_nil_r.
Qed.

Lemma merge_lcp (p1 p2 : string) : merge p1 p2 = lcp p1 p2.
Proof. exact (scan_from p1 "" p2). Qed.

Lemma lcp_nil_r (a : string) : lcp a "" = "".
Proof. by destruct a. Qed.

Lemma lcp_assoc (a : string) : ∀ b c, lcp (lcp a b) c = lcp a (lcp b c).
Proof.
  induction a as [|x a IH]; intros [|y b] [|z c]; simpl; try done.
  - by case_decide.
  - repeat (case_decide; simpl); subst; try done. by rewrite IH.
Qed.

Lemma lcp_prefix_l (a : string) : ∀ b, String.prefix (lcp a b) a = true.
Proof.
  induction a as [|x a IH]; intros [|y b]; simpl; try done.
  case_decide; simpl; [| done]. destruct (ascii_dec x x); [apply IH | done].
Qed.

Lemma lcp_prefix_r (a : string) : ∀ b, String.prefix (lcp a b) b = true.
Proof.
  induction a as [|x a IH]; intros [|y b]; simpl; try done.
  case_decide; simpl; [| done]. subst.
  destruct (ascii_dec y y); [apply IH | done].
Qed.

Lemma lcp_greatest (q : string) : ∀ a b,
  String.prefix q a = true → String.prefix q b = true →
  String.prefix q (lcp a b) = true.
Proof.
  induction q as [|x q IH]; intros a b Ha Hb.
  - by destruct (lcp a b).
  - destruct a as [|y a], b as [|z b]; simpl in *; try done.
    destruct (ascii_dec x y) as [->|]; [| done].
    destruct (ascii_dec y z) as [->|]; [| done].
    case_decide; [| done]. simpl.
    destruct (ascii_dec z z); [by apply IH | done].
Qed.

Lemma prefix_trans (p : string) : ∀ q s,
  String.prefix p q = true → String.prefix q s = true →
  String.prefix p s = true.
Proof.
  induction p as [|x p IH]; intros q s Hpq Hqs.
  - by destruct s.
  - destruct q as [|y q], s as [|z s]; simpl in *; try done.
    destruct (ascii_dec x y) as [->|]; [| done].
    destruct (ascii_dec y z) as [->|]; [| done]. by eapply IH.
Qed.

Lemma prefix_refl (p : string) : String.prefix p p = true.
Proof.
  induction p as [|x p IH]; simpl; [done |].
  by destruct (ascii_dec x x).
Qed.

Lemma foldl_lcp_shift (r : list string) : ∀ a y,
  foldl lcp (lcp a y) r = lcp a (foldl lcp y r).
Proof.
  induction r as [|z r IH]; intros a y; simpl; [done |].
  by rewrite lcp_assoc, IH.
Qed.

(** Reducing a concatenation is merging the reductions of its parts. *)
Lemma lcp_fold_app (x : string) (r1 : list string) (y : string)
    (r2 : list string) :
  lcp_fold x (r1 ++ y :: r2) = lcp (lcp_fold x r1) (lcp_fold y r2).
Proof.
  unfold lcp_fold. rewrite foldl_app. simpl. apply foldl_lcp_shift.
Qed.

Lemma common_prefix_fold (s : list string) :
  ∀ x r, s = x :: r → common_prefix s = lcp_fold x r.
Proof.
  funelim (common_prefix s); intros x0 r0 Heq; try done.
  - by injection Heq as <- <-.
  - injection Heq as <- <-. rewrite merge_lcp.
    set (l := x :: y :: r) in *. set (h := length l / 2) in *.
    assert (0 < h) as Hh0 by (apply Nat.div_str_pos; simpl; lia).
    assert (h < length l) as Hh1 by (apply Nat.div_lt; simpl; lia).
    destruct (take h l) as [|a r1] eqn:Htake.
    { apply (f_equal length) in Htake. rewrite length_take in Htake.
      change (length (@nil string)) with 0 in Htake. lia. }
    destruct (drop h l) as [|b r2] eqn:Hdrop.
    { apply (f_equal length) in Hdrop. rewrite length_drop in Hdrop.
      change (length (@nil string)) with 0 in Hdrop. lia. }
    rewrite (H a r1 eq_refl), (H0 b r2 eq_refl), <- lcp_fold_app.
    pose proof (take_drop h l) as Htd. rewrite Htake, Hdrop in Htd.
    unfold l in Htd. simpl in Htd. injection Htd as -> ->. done.
Qed.

Lemma lcp_fold_prefix (r : list string) : ∀ x s,
  s ∈ x :: r → String.prefix (lcp_fold x r) s = true.
Proof.
  unfold lcp_fold.
  induction r as [|y r IH]; intros x s Hs; simpl.
  - apply list_elem_of_singleton in Hs as ->. apply prefix_refl.
  - rewrite foldl_lcp_shift.
    apply elem_of_cons in Hs as [->|Hs].
    + apply lcp_prefix_l.
    + eapply prefix_trans; [apply lcp_prefix_r | by apply IH].
Qed.

Lemma lcp_fold_greatest (r : list string) : ∀ x q,
  (∀ s, s ∈ x :: r → String.prefix q s = true) →
  String.prefix q (lcp_fold x r) = true.
Proof.
  unfold lcp_fold.
  induction r as [|y r IH]; intros x q Hq; simpl.
  - apply Hq. left.
  - rewrite foldl_lcp_shift. apply lcp_greatest.
    + apply Hq. left.
    + apply IH. intros s Hs. apply Hq. by right.
Qed.

(** C9: on a non-empty list of strings, the recursive-halving
  [common_prefix] returns what the linear left-to-right reduction by
  the two-string longest common prefix returns, and that string is a
  prefix of every listed string that every other common prefix is a
  prefix of. *)
Theorem common_prefix_linear_reduction (x : string) (r : list string) :
common_prefix (x :: r) = lcp_fold x r
∧ (∀ s, s ∈ x :: r → String.prefix (common_prefix (x :: r)) s = true)
∧ (∀ q, (∀ s, s ∈ x :: r → String.prefix q s = true) →
        String.prefix q (common_prefix (x :: r)) = true).
Proof.
rewrite (common_prefix_fold (x :: r) x r eq_refl).
split; [done |]. split.
- intros s. apply lcp_fold_prefix.
- intros q. apply lcp_fold_greatest.
Qed.

End PrefixFacts.

(** ** The dependency-ordering loop *)

Section OrderLoop.

Lemma ready_spec (done_ids : gset string) (c : Class.t) :
  forallb (λ p, bool_decide (p ∈ done_ids)) (Class.parent_ids c) = true
  ↔ ready done_ids c.
Proof.
  unfold ready. induction (Class.parent_ids c) as [|q l IH]; simpl.
  - split; [intros _ p Hp; by apply elem_of_nil in Hp | done].
  - rewrite andb_true_iff, bool_decide_eq_true, IH. split.
    + intros [Hq Hl] p [->|Hp]%elem_of_cons; auto.
    + intros H. split; [apply H; left | intros p Hp; apply H; by right].
Qed.

Lemma parents_first_snoc (out : list Class.t) (c : Class.t) :
  parents_first out →
  (∀ p, p ∈ Class.parent_ids c → ∃ d, d ∈ out ∧ Class._id d = p) →
  parents_first (out ++ [c]).
Proof.
  intros Hout Hc i c' p Hi Hp.
  destruct (decide (i < length out)) as [Hlt|Hge].
  - rewrite lookup_app_l in Hi by done.
    destruct (Hout i c' p Hi Hp) as (j & d & Hj & Hd & Hid).
    exists j, d. split; [done |]. split; [| done].
    rewrite lookup_app_l; [done | lia].
  - rewrite lookup_app_r in Hi by lia.
    apply list_lookup_singleton_Some in Hi as [Hi <-].
    destruct (Hc p Hp) as (d & [j Hj]%list_elem_of_lookup & Hid).
    pose proof (lookup_lt_Some _ _ _ Hj).
    exists j, d. split; [lia |]. split; [| done].
    by rewrite lookup_app_l.
Qed.

(** What a returning run of the loop guarantees, from any state in
    which [done_ids] holds the ids of the records already emitted. *)
Lemma order_loop_sound (fuel : nat) :
  ∀ tmp done_ids out res,
    order_loop fuel tmp done_ids out = Return res →
    (∀ p, p ∈ done_ids ↔ ∃ d, d ∈ out ∧ Class._id d = p) →
    parents_first out →
    res ≡ₚ out ++ tmp ∧ parents_first res.
Proof.
  induction fuel as [|fuel IH]; intros tmp done_ids out res Hrun Hdone Hout;
    destruct tmp as [|c tmp]; simpl in Hrun; try done.
  - injection Hrun as <-. by rewrite app_nil_r.
  - injection Hrun as <-. by rewrite app_nil_r.
  - destruct (forallb _ _) eqn:Hready.
    + apply ready_spec in Hready.
      apply IH in Hrun as [Hperm Hres].
      * split; [| done]. by rewrite Hperm, <- app_assoc.
      * intros p. rewrite elem_of_union, elem_of_singleton, Hdone. split.
        -- intros [->|(d & Hd & Hid)].
           ++ exists c. split; [| done]. apply elem_of_app. right. left.
           ++ exists d. split; [| done]. apply elem_of_app. by left.
        -- intros (d & [Hd| ->%list_elem_of_singleton]%elem_of_app & Hid);
             [right; eauto | by left].
      * apply parents_first_snoc; [done |].
        intros p Hp. apply Hdone. by apply Hready.
    + apply IH in Hrun as [Hperm Hres]; [| done..].
      split; [| done]. rewrite Hperm.
      apply Permutation_app_head. symmetry. apply Permutation_cons_append.
Qed.

(** In a non-empty list on which every element has a successor, some
    element reaches itself. *)
Lemma total_cycle {A} (l : list A) : ∀ R : relation A,
  l ≠ [] →
  (∀ x, x ∈ l → ∃ y, y ∈ l ∧ R x y) →
  ∃ x, x ∈ l ∧ tc R x x.
Proof.
  induction l as [|x l IH]; intros R Hne Htot; [done |].
  destruct (Htot x) as (z & Hz & Hxz); [left |].
  apply elem_of_cons in Hz as [->|Hz].
  { exists x. split; [left | by apply tc_once]. }
  set (R' := λ a b, R a b ∨ (R a x ∧ R x b)).
  assert (∀ a b, tc R' a b → tc R a b) as Hsub.
  { induction 1 as [a b [Hab|[Hax Hxb]]|a b c [Hab|[Hax Hxb]] _ IHtc].
    - by apply tc_once.
    - eapply tc_l; [exact Hax | by apply tc_once].
    - by eapply tc_l.
    - eapply tc_l; [exact Hax |]. by eapply tc_l. }
  destruct (IH R') as (a & Ha & Hcyc).
  - intros ->. by apply elem_of_nil in Hz.
  - intros a Ha. destruct (Htot a) as (b & Hb & Hab); [by right |].
    apply elem_of_cons in Hb as [->|Hb].
    + exists z. split; [done |]. right. done.
    + exists b. split; [done |]. by left.
  - exists a. split; [by right | by apply Hsub].
Qed.

Lemma split_first {A} (P : A → Prop) `{!∀ x, Decision (P x)} (l : list A) :
  Exists P l →
  ∃ l1 c l2, l = l1 ++ c :: l2 ∧ Forall (λ x, ¬ P x) l1 ∧ P c.
Proof.
  induction l as [|x l IH]; intros Hex; [by apply Exists_nil in Hex |].
  destruct (decide (P x)) as [Hx|Hx].
  - exists [], x, l. by repeat split.
  - apply Exists_cons in Hex as [?|Hex]; [done |].
    destruct (IH Hex) as (l1 & c & l2 & -> & Hl1 & Hc).
    exists (x :: l1), c, l2. repeat split; [| done]. by constructor.
Qed.

Lemma not_ready_parent (done_ids : gset string) (c : Class.t) :
  ¬ ready done_ids c → ∃ p, p ∈ Class.parent_ids c ∧ p ∉ done_ids.
Proof.
  unfold ready. induction (Class.parent_ids c) as [|q l IH]; intros Hnot.
  - destruct Hnot. intros p Hp. by apply elem_of_nil in Hp.
  - destruct (decide (q ∈ done_ids)) as [Hq|Hq].
    + destruct IH as (p & Hp & Hpd).
      * intros Hl. apply Hnot. intros p [->|Hp]%elem_of_cons; auto.
      * exists p. split; [by right | done].
    + exists q. split; [left | done].
Qed.

Lemma order_loop_ready (fuel : nat) (c : Class.t) (tmp : list Class.t)
    (done_ids : gset string) (out : list Class.t) :
  ready done_ids c →
  order_loop (S fuel) (c :: tmp) done_ids out
  = order_loop fuel tmp ({[Class._id c]} ∪ done_ids) (out ++ [c]).
Proof. intros H%ready_spec. simpl. by rewrite H. Qed.

Lemma order_loop_requeue (fuel : nat) (c : Class.t) (tmp : list Class.t)
    (done_ids : gset string) (out : list Class.t) :
  ¬ ready done_ids c →
  order_loop (S fuel) (c :: tmp) done_ids out
  = order_loop fuel (tmp ++ [c]) done_ids out.
Proof.
  intros H. simpl. destruct (forallb _ _) eqn:E; [| done].
  by apply ready_spec in E.
Qed.

(** The records ahead of the first ready one are requeued in order,
    then the ready one is emitted. *)
Lemma order_loop_rotate (l1 : list Class.t) :
  ∀ l2 c done_ids out fuel,
    Forall (λ x, ¬ ready done_ids x) l1 →
    ready done_ids c →
    order_loop (length l1 + S fuel) (l1 ++ c :: l2) done_ids out
    = order_loop fuel (l2 ++ l1) ({[Class._id c]} ∪ done_ids) (out ++ [c]).
Proof.
  induction l1 as [|x l1 IH]; intros l2 c done_ids out fuel Hl1 Hc.
  - rewrite app_nil_r. by apply order_loop_ready.
  - apply Forall_cons in Hl1 as [Hx Hl1].
    change (length (x :: l1) + S fuel) with (S (length l1 + S fuel)).
    change ((x :: l1) ++ c :: l2) with (x :: (l1 ++ c :: l2)).
    rewrite order_loop_requeue by done.
    rewrite <- app_assoc. change ((c :: l2) ++ [x]) with (c :: (l2 ++ [x])).
    rewrite IH by done. by rewrite <- app_assoc.
Qed.

(** Termination: without a cycle, and with every outstanding parent
    still queued, a quadratic number of iterations empties the queue. *)
Lemma order_loop_terminates (cs : list Class.t) :
  ¬ cyclic cs →
  ∀ n tmp done_ids out fuel,
    length tmp = n → n * n ≤ fuel →
    (∀ c, c ∈ tmp → c ∈ cs) →
    (∀ c p, c ∈ tmp → p ∈ Class.parent_ids c →
            p ∈ done_ids ∨ ∃ d, d ∈ tmp ∧ Class._id d = p) →
    ∃ res, order_loop fuel tmp done_ids out = Return res.
Proof.
  intros Hacyc. induction n as [|n IH];
    intros tmp done_ids out fuel Hlen Hfuel Hsub Hpar.
  { apply nil_length_inv in Hlen as ->. exists out. by destruct fuel. }
  assert (Exists (ready done_ids) tmp) as Hex.
  { destruct (decide (Exists (ready done_ids) tmp)) as [|Hnone]; [done |].
    destruct Hacyc. apply not_Exists_Forall in Hnone; [| apply _].
    destruct (total_cycle tmp
                (λ c d, c ∈ cs ∧ Class._id d ∈ Class.parent_ids c))
      as (c & Hc & Hcyc).
    - intros ->. done.
    - intros c Hc.
      pose proof (proj1 (Forall_forall _ _) Hnone c Hc) as Hnr.
      apply not_ready_parent in Hnr as (p & Hp & Hpd).
      destruct (Hpar c p Hc Hp) as [?|(d & Hd & <-)]; [done |].
      exists d. auto.
    - exists (Class._id c).
      eapply (tc_congruence Class._id); [| exact Hcyc].
      intros x y [Hx Hy]. by exists x. }
  apply split_first in Hex as (l1 & c & l2 & -> & Hl1 & Hc); [| apply _].
  rewrite length_app in Hlen. simpl in Hlen.
  replace fuel with (length l1 + S (fuel - length l1 - 1)) by nia.
  rewrite order_loop_rotate by done.
  apply IH.
  - rewrite length_app. lia.
  - nia.
  - intros d Hd. apply Hsub. apply elem_of_app in Hd as [Hd|Hd];
      apply elem_of_app; [right; by right | by left].
  - intros d p Hd Hp.
    destruct (Hpar d p) as [Hdone|(e & He & Heid)]; [| done | |].
    + apply elem_of_app in Hd as [Hd|Hd];
        apply elem_of_app; [right; by right | by left].
    + left. apply elem_of_union. by right.
    + apply elem_of_app in He as [He|[->|He]%elem_of_cons].
      * right. exists e. split; [| done]. apply elem_of_app. by right.
      * left. apply elem_of_union. left. by apply elem_of_singleton.
      * right. exists e. split; [| done]. apply elem_of_app. by left.
Qed.

Lemma nodup_fmap_eq {A B} (f : A → B) (l : list A) (x y : A) :
  NoDup (f <$> l) → x ∈ l → y ∈ l → f x = f y → x = y.
Proof.
  induction l as [|z l IH]; intros Hnd Hx Hy Hxy.
  { by apply elem_of_nil in Hx. }
  rewrite fmap_cons in Hnd. apply NoDup_cons in Hnd as [Hz Hnd].
  apply elem_of_cons in Hx as [->|Hx], Hy as [->|Hy]; auto.
  - destruct Hz. rewrite Hxy. by apply list_elem_of_fmap_2.
  - destruct Hz. rewrite <- Hxy. by apply list_elem_of_fmap_2.
Qed.

(** Divergence: the records on a cycle through [a] are never emitted,
    so the queue never empties. *)
Lemma order_loop_diverges (cs : list Class.t) (a : string) :
  NoDup (Class._id <$> cs) →
  tc (parent_rel cs) a a →
  ∀ fuel tmp done_ids out,
    (∀ c, c ∈ tmp → c ∈ cs) →
    (∃ c0, c0 ∈ tmp ∧ tc (parent_rel cs) a (Class._id c0)
                     ∧ tc (parent_rel cs) (Class._id c0) a) →
    (∀ x, tc (parent_rel cs) a x → tc (parent_rel cs) x a → x ∉ done_ids) →
    order_loop fuel tmp done_ids out = OutOfFuel.
Proof.
  intros Hnd Haa.
  induction fuel as [|fuel IH]; intros tmp done_ids out Hsub Hc0 Hdone;
    destruct tmp as [|c tmp].
  - destruct Hc0 as (c0 & Hc0 & _). by apply elem_of_nil in Hc0.
  - done.
  - destruct Hc0 as (c0 & Hc0 & _). by apply elem_of_nil in Hc0.
  - destruct (decide (ready done_ids c)) as [Hr|Hr].
    + rewrite order_loop_ready by done.
      assert (¬ (tc (parent_rel cs) a (Class._id c)
                 ∧ tc (parent_rel cs) (Class._id c) a)) as Hoff.
      { intros [Hac Hca].
        assert (∃ y, parent_rel cs (Class._id c) y
                     ∧ tc (parent_rel cs) a y ∧ tc (parent_rel cs) y a)
          as (y & (c' & Hc' & Hid & Hy) & Hay & Hya).
        { inversion Hca as [? ? Hstep|? y ? Hstep Hrest]; subst.
          - exists a. auto.
          - exists y. split; [done |]. split; [| done].
            by eapply tc_r. }
        assert (c' = c) as ->.
        { eapply (nodup_fmap_eq Class._id cs); [done.. | |done].
          apply Hsub. left. }
        by apply (Hdone y Hay Hya), Hr. }
      apply IH.
      * intros d Hd. apply Hsub. by right.
      * destruct Hc0 as (c0 & [->|Hc0]%elem_of_cons & H1 & H2);
          [by destruct Hoff | by exists c0].
      * intros x Hax Hxa [->%elem_of_singleton|Hx]%elem_of_union;
          [by destruct Hoff | by eapply Hdone].
    + rewrite order_loop_requeue by done.
      apply IH; [| | done].
      * intros d [Hd| ->%list_elem_of_singleton]%elem_of_app;
          apply Hsub; [by right | left].
      * destruct Hc0 as (c0 & Hc0 & H1 & H2). exists c0.
        split; [| done].
        apply elem_of_cons in Hc0 as [->|Hc0]; apply elem_of_app;
          [right; left | by left].
Qed.

End OrderLoop.

(** ** The name resolver *)

Section NameResolver.

Context (compact : string → string).

Lemma get_compact_id_cache (compact_ids : gmap string string)
    (_id : string) (fallback : option string) :
  (get_compact_id compact compact_ids _id fallback).2
  = match compact_ids !! _id with
    | Some _ => compact_ids
    | None => <[_id := compact _id]> compact_ids
    end.
Proof.
  unfold get_compact_id.
  destruct (compact_ids !! _id) as [v|] eqn:E.
  - rewrite decide_False; [by repeat case_match |].
    intros H. apply H. apply elem_of_dom. by exists v.
  - rewrite decide_True; [by repeat case_match |].
    by apply not_elem_of_dom.
Qed.

Lemma get_compact_id_result (compact_ids : gmap string string)
    (_id : string) (fallback : option string) :
  let v := default (compact _id) (compact_ids !! _id) in
  (get_compact_id compact compact_ids _id fallback).1
  = match fallback with
    | Some fb => if decide (v = _id) then fb else v
    | None => v
    end.
Proof.
  unfold get_compact_id.
  destruct (compact_ids !! _id) as [v|] eqn:E; simpl.
  - rewrite decide_False.
    2:{ intros H. apply H. apply elem_of_dom. by exists v. }
    rewrite (lookup_total_correct _ _ _ E).
    by repeat case_match.
  - rewrite decide_True by (by apply not_elem_of_dom).
    rewrite lookup_total_insert_eq. by repeat case_match.
Qed.

Lemma get_compact_id_cache_ok (compact_ids : gmap string string)
    (_id : string) (fallback : option string) :
  cache_ok compact compact_ids →
  cache_ok compact (get_compact_id compact compact_ids _id fallback).2.
Proof.
  intros Hok. rewrite get_compact_id_cache.
  destruct (compact_ids !! _id) eqn:E; [done |].
  intros k v. destruct (decide (_id = k)) as [->|Hne].
  - rewrite lookup_insert_eq. congruence.
  - rewrite lookup_insert_ne by done. apply Hok.
Qed.

End NameResolver.

(** C7 (as the code has it): [get_compact_id] stores the compaction of
    an identifier under that identifier on first use and never changes
    an entry; it returns the stored name, except that it returns the
    caller's fallback when the stored name equals the identifier and a
    fallback is given.  The fallback is not stored.  A second call with
    the same identifier and the same fallback returns the same result
    from the cache, whatever the context would now answer, and leaves
    the cache as it is. *)
Theorem get_compact_id_cached (compact compact' : string → string)
    (compact_ids : gmap string string) (_id : string)
    (fallback : option string) :
  cache_ok compact compact_ids →
  let '(r, ids) := get_compact_id compact compact_ids _id fallback in
  ids !! _id = Some (compact _id)
  ∧ (∀ k, k ≠ _id → ids !! k = compact_ids !! k)
  ∧ r = match fallback with
        | Some fb => if decide (compact _id = _id) then fb else compact _id
        | None => compact _id
        end
  ∧ get_compact_id compact' ids _id fallback = (r, ids).
Proof.
  intros Hok.
  pose proof (get_compact_id_cache compact compact_ids _id fallback) as Hc.
  pose proof (get_compact_id_result compact compact_ids _id fallback) as Hr.
  destruct (get_compact_id compact compact_ids _id fallback) as [r ids].
  simpl in Hc, Hr.
  assert (ids !! _id = Some (compact _id)) as Hid.
  { rewrite Hc. destruct (compact_ids !! _id) as [v|] eqn:E.
    - by rewrite E, (Hok _ _ E).
    - by rewrite lookup_insert_eq. }
  assert (default (compact _id) (compact_ids !! _id) = compact _id) as Hv.
  { destruct (compact_ids !! _id) as [v|] eqn:E; [| done].
    simpl. by apply Hok. }
  rewrite Hv in Hr. repeat split; [done | | done |].
  - intros k Hk. rewrite Hc. destruct (compact_ids !! _id); [done |].
    by rewrite lookup_insert_ne.
  - pose proof (get_compact_id_cache compact' ids _id fallback) as Hc'.
    pose proof (get_compact_id_result compact' ids _id fallback) as Hr'.
    destruct (get_compact_id compact' ids _id fallback) as [r' ids'].
    simpl in Hc', Hr'. rewrite Hid in Hc', Hr'. simpl in Hr'.
    by rewrite Hc', Hr', Hr.
Qed.

(** ** The property resolver *)

Section PropertyResolver.

Context (falsy_value : string → bool).

Lemma truthy_asserts (g : Graph) (s p r : string) :
  asserts falsy_value g s p r → truthy falsy_value (value g s p) = Some r.
Proof.
  intros (-> & Hr & Hf). simpl. rewrite decide_False by done. by rewrite Hf.
Qed.

Lemma truthy_asserts_none (g : Graph) (s p : string) :
  asserts_none falsy_value g s p → truthy falsy_value (value g s p) = None.
Proof.
  intros [-> | (r & -> & [-> | Hf])]; simpl; [done | done |].
  case_decide; [done |]. by rewrite Hf.
Qed.

Lemma truthy_Some (v : option string) (r : string) :
  truthy falsy_value v = Some r → v = Some r ∧ r ≠ "".
Proof.
  destruct v as [x|]; simpl; [| done].
  case_decide; [done |]. destruct (falsy_value x); [done |].
  by intros [= ->].
Qed.

Lemma truthy_Some_asserts (g : Graph) (s p r : string) :
  truthy falsy_value (value g s p) = Some r → asserts falsy_value g s p r.
Proof.
  unfold asserts. destruct (value g s p) as [x|]; simpl; [| done].
  case_decide; [done |]. destruct (falsy_value x) eqn:E; [done |].
  by intros [= <-].
Qed.

Lemma truthy_None_asserts (g : Graph) (s p : string) :
  truthy falsy_value (value g s p) = None → asserts_none falsy_value g s p.
Proof.
  unfold asserts_none. destruct (value g s p) as [x|]; simpl; [| by left].
  case_decide; [intros _; right; eauto |].
  destruct (falsy_value x) eqn:E; [| done]. intros _. right. eauto.
Qed.

(** The outcome of the resolution, case by case, on any record. *)
Lemma resolve_range_cases (g : Graph) (enum_iris class_iris : gset string)
    (obj_prop prop : string) (p : Property.t) :
  (∀ r, asserts falsy_value g obj_prop SH.class r →
     resolve_range falsy_value g enum_iris class_iris obj_prop prop p
     = if decide (r ∈ enum_iris) then Return (Property.set_enum_id p r)
       else if decide (r ∈ class_iris) then Return (Property.set_class_id p r)
       else Raise (UnknownClassRestriction prop r))
  ∧ (asserts_none falsy_value g obj_prop SH.class →
     ∀ r, asserts falsy_value g obj_prop SH.datatype r →
       resolve_range falsy_value g enum_iris class_iris obj_prop prop p
       = Return
           (match truthy falsy_value (value g obj_prop SH.pattern) with
            | Some pattern =>
                Property.set_pattern (Property.set_datatype p r) pattern
            | None => Property.set_datatype p r
            end))
  ∧ (asserts_none falsy_value g obj_prop SH.class →
     asserts_none falsy_value g obj_prop SH.datatype →
     ∀ r, asserts falsy_value g prop RDFS.range r →
       resolve_range falsy_value g enum_iris class_iris obj_prop prop p
       = if decide (r ∈ enum_iris) then Return (Property.set_enum_id p r)
         else if decide (r ∈ class_iris)
         then Return (Property.set_class_id p r)
         else Return (Property.set_datatype p r))
  ∧ (asserts_none falsy_value g obj_prop SH.class →
     asserts_none falsy_value g obj_prop SH.datatype →
     asserts_none falsy_value g prop RDFS.range →
     resolve_range falsy_value g enum_iris class_iris obj_prop prop p
     = Raise (MissingRange prop)).
Proof.
  unfold resolve_range. split; [| split; [| split]].
  - intros r Hr. by rewrite (truthy_asserts _ _ _ _ Hr).
  - intros Hc r Hd.
    rewrite (truthy_asserts_none _ _ _ Hc), (truthy_asserts _ _ _ _ Hd).
    by destruct (truthy falsy_value (value g obj_prop SH.pattern)).
  - intros Hc Hd r Hr.
    by rewrite (truthy_asserts_none _ _ _ Hc), (truthy_asserts_none _ _ _ Hd),
      (truthy_asserts _ _ _ _ Hr).
  - intros Hc Hd Hr.
    by rewrite (truthy_asserts_none _ _ _ Hc), (truthy_asserts_none _ _ _ Hd),
      (truthy_asserts_none _ _ _ Hr).
Qed.

Lemma resolve_range_one_range (g : Graph) (enum_iris class_iris : gset string)
    (obj_prop prop : string) (p p' : Property.t) :
  no_range p →
  resolve_range falsy_value g enum_iris class_iris obj_prop prop p = Return p' →
  one_range p'.
Proof.
  intros (He & Hc & Hd & Hp). unfold resolve_range.
  destruct (truthy falsy_value (value g obj_prop SH.class)) as [r|] eqn:E1.
  { apply truthy_Some in E1 as [_ Hr].
    repeat case_decide; intros [= <-]; unfold one_range; simpl;
      (split; [| by rewrite Hp, ?Hd]); auto. }
  destruct (truthy falsy_value (value g obj_prop SH.datatype)) as [r|] eqn:E2.
  { apply truthy_Some in E2 as [_ Hr].
    destruct (truthy falsy_value (value g obj_prop SH.pattern)); intros [= <-];
      unfold one_range; simpl; (split; [| done]); auto. }
  destruct (truthy falsy_value (value g prop RDFS.range)) as [r|] eqn:E3; [| done].
  apply truthy_Some in E3 as [_ Hr].
  repeat case_decide; intros [= <-]; unfold one_range; simpl;
    (split; [| by rewrite ?Hp, ?Hd]); auto.
Qed.

End PropertyResolver.

(** ** Loops that may raise *)

Section Loops.

Lemma bind_Return {A B} (m : outcome A) (k : A → outcome B) (b : B) :
  (x ← m; k x) = Return b → ∃ a, m = Return a ∧ k a = Return b.
Proof. destruct m as [a| |]; simpl; [| done..]. intros H. by exists a. Qed.

Lemma bind_Raise {A B} (m : outcome A) (k : A → outcome B) (e : exn) :
  (x ← m; k x) = Raise e →
  m = Raise e ∨ ∃ a, m = Return a ∧ k a = Raise e.
Proof.
  destruct m as [a| |]; simpl; [| by left; congruence | done].
  intros H. right. by exists a.
Qed.

(** An invariant indexed by the part of the list already visited. *)
Lemma for_each_inv {A S} (body : S → A → outcome S)
    (I : list A → S → Prop) (L : list A) :
  (∀ pre a post st st',
      L = pre ++ a :: post → I pre st → body st a = Return st' →
      I (pre ++ [a]) st') →
  ∀ l pre st0 st,
    L = pre ++ l → I pre st0 → for_each body l st0 = Return st → I L st.
Proof.
  intros Hstep. induction l as [|a l IH]; intros pre st0 st HL H0 Hrun.
  - injection Hrun as <-. by rewrite HL, app_nil_r.
  - simpl in Hrun. apply bind_Return in Hrun as (st1 & Hbody & Hrun).
    apply (IH (pre ++ [a]) st1 st).
    + by rewrite <- app_assoc.
    + by eapply Hstep.
    + done.
Qed.

(** An element on which the body never returns stops the loop. *)
Lemma for_each_stops {A S} (body : S → A → outcome S) (a : A) (l : list A) :
  (∀ st st', body st a ≠ Return st') →
  a ∈ l → ∀ st0 st, for_each body l st0 ≠ Return st.
Proof.
  intros Hbad. induction l as [|b l IH]; intros Hin st0 st Hrun.
  - by apply elem_of_nil in Hin.
  - simpl in Hrun. apply bind_Return in Hrun as (st1 & Hbody & Hrun).
    apply elem_of_cons in Hin as [<-|Hin]; [by eapply Hbad | by eapply IH].
Qed.

(** A loop body never runs out of fuel when its steps do not. *)
Lemma for_each_fuel {A S} (body : S → A → outcome S) (l : list A) :
  (∀ st a, body st a ≠ OutOfFuel) →
  ∀ st0, for_each body l st0 ≠ OutOfFuel.
Proof.
  intros Hbody. induction l as [|a l IH]; intros st0; simpl; [done |].
  destruct (body st0 a) as [st1| |] eqn:E; simpl; [apply IH | done |].
  by apply Hbody in E.
Qed.

Lemma foldl_inv {A S} (step : S → A → S) (I : S → Prop) (l : list A) :
  (∀ st a, I st → I (step st a)) → ∀ st, I st → I (foldl step st l).
Proof.
  intros Hstep. induction l as [|a l IH]; intros st H0; simpl; auto.
Qed.

End Loops.

(** ** The split into enumerations and structural classes *)

Section Classifier.

Context (compact : string → string).

Lemma classify_spec (g : Graph) :
  let sp := classify compact g in
  (∀ x, x ∈ class_iris sp → enum_values_of g x = [])
  ∧ (∀ x, x ∈ enum_iris sp → enum_values_of g x ≠ [])
  ∧ (∀ e, e ∈ sp_enums sp → Enum._id e ∈ enum_iris sp).
Proof.
  unfold classify. apply foldl_inv.
  - intros st x (Hc & He & Hen). unfold classify_step.
    destruct (enum_values_of g x) as [|v vs] eqn:E.
    + simpl. split; [| done].
      intros y [->%elem_of_singleton|Hy]%elem_of_union; auto.
    + destruct (get_class_name compact (sp_compact_ids st) x)
        as [clsname ids].
      simpl. split; [done |]. split.
      * intros y [->%elem_of_singleton|Hy]%elem_of_union; [| auto].
        by rewrite E.
      * intros e [He'| ->%list_elem_of_singleton]%elem_of_app;
          apply elem_of_union; [right; auto | left].
        by apply elem_of_singleton.
  - simpl. repeat split; intros x Hx;
      solve [by apply elem_of_empty in Hx | by apply elem_of_nil in Hx].
Qed.

Lemma classify_disjoint (g : Graph) (x : string) :
  x ∈ class_iris (classify compact g) →
  x ∉ enum_iris (classify compact g).
Proof.
  destruct (classify_spec g) as (Hc & He & _).
  intros H1 H2. by apply (He x H2), Hc.
Qed.

End Classifier.

(** ** The class builder *)

Section Builder.

Context (falsy_value : string → bool)
        (compact : string → string)
        (py_int : string → option Z)
        (set_iter : gset string → list string).

Lemma build_property_spec (g : Graph) (enum_iris class_iris : gset string)
    (cls_iri : string) (st st' : list Property.t * gmap string string)
    (obj_prop : string) :
  build_property falsy_value compact py_int g enum_iris class_iris cls_iri st obj_prop
  = Return st' →
  ∃ p, st'.1 = st.1 ++ [p] ∧ one_range p.
Proof.
  destruct st as [properties ids]. unfold build_property.
  destruct (value g obj_prop SH.path) as [prop|]; [| done].
  destruct (get_compact_id compact ids prop _) as [dflt ids1].
  intros (max_count & _ & H)%bind_Return.
  apply bind_Return in H as (min_count & _ & H).
  apply bind_Return in H as (p & Hp & H).
  injection H as <-. exists p. split; [done |].
  eapply resolve_range_one_range; [| exact Hp]. by repeat split.
Qed.

Lemma build_class_spec (g : Graph) (enum_iris class_iris : gset string)
    (st st' : Built) (cls_iri : string) :
  build_class falsy_value compact py_int g enum_iris class_iris st cls_iri = Return st' →
  ∃ c, bl_classes st' = bl_classes st ++ [c]
       ∧ classes_by_iri st'
         = <[cls_iri := length (bl_classes st)]> (classes_by_iri st)
       ∧ Class._id c = cls_iri
       ∧ class_built g class_iris c.
Proof.
  unfold build_class.
  destruct (get_class_name compact (bl_compact_ids st) cls_iri)
    as [clsname ids].
  cbn [Class.refable Class._id].
  case_decide as Hrefable; [done |].
  intros ([properties ids'] & Hloop & H)%bind_Return.
  injection H as <-. eexists. cbn. repeat split.
  - exact Hrefable.
  - change properties with (properties, ids').1.
    eapply (for_each_inv _ (λ _ st, Forall one_range st.1));
      [| | | exact Hloop].
    + intros pre a post st1 st2 _ Hst1 Hbody.
      apply build_property_spec in Hbody as (p & -> & Hp).
      apply Forall_app. split; [done |]. by constructor.
    + by instantiate (1 := []).
    + by constructor.
Qed.

Lemma build_classes_spec (g : Graph) (sp : Split) (b : Built) :
  NoDup (set_iter (class_iris sp)) →
  build_classes falsy_value compact py_int set_iter g sp = Return b →
  Class._id <$> bl_classes b = set_iter (class_iris sp)
  ∧ Forall (class_built g (class_iris sp)) (bl_classes b)
  ∧ (∀ s i, classes_by_iri b !! s = Some i
            ↔ set_iter (class_iris sp) !! i = Some s).
Proof.
  intros Hnd Hrun. unfold build_classes in Hrun.
  eapply (for_each_inv _
            (λ pre st,
               Class._id <$> bl_classes st = pre
               ∧ Forall (class_built g (class_iris sp)) (bl_classes st)
               ∧ (∀ s i, classes_by_iri st !! s = Some i
                         ↔ pre !! i = Some s)));
    [| | | exact Hrun].
  - intros pre a post st st' HL (Hids & Hall & Hby) Hbody.
    apply build_class_spec in Hbody as (c & Hcs & Hmap & Hid & Hc).
    rewrite Hcs, Hmap. split; [| split].
    + by rewrite fmap_app, Hids, <- Hid.
    + apply Forall_app. split; [done |]. by constructor.
    + assert (length (bl_classes st) = length pre) as Hlen.
      { by rewrite <- Hids, length_fmap. }
      assert (a ∉ pre) as Hfresh.
      { rewrite HL in Hnd. apply NoDup_app in Hnd as (_ & Hnd & _).
        intros Ha. apply (Hnd a Ha). left. }
      rewrite Hlen. intros s i. split.
      * destruct (decide (a = s)) as [->|Hne].
        -- rewrite lookup_insert_eq. intros [= <-].
           by rewrite list_lookup_middle.
        -- rewrite lookup_insert_ne by done. intros Hi%Hby.
           by apply lookup_app_l_Some.
      * intros Hi. apply lookup_app_Some in Hi as [Hi|[Hge Hi]].
        -- rewrite lookup_insert_ne; [by apply Hby |].
           intros ->. apply Hfresh. by eapply list_elem_of_lookup_2.
        -- apply list_lookup_singleton_Some in Hi as [Hi <-].
           replace i with (length pre) by lia. apply lookup_insert_eq.
  - by instantiate (1 := []).
  - simpl. split; [done |]. split; [constructor |].
    intros s i. by rewrite lookup_empty.
Qed.

End Builder.

(** ** Derived-class back links *)

Section Linker.

Context (by_iri : gmap string nat) (store0 : list Class.t).

Lemma linked_start : linked by_iri store0 [] store0.
Proof.
  split; [done |]. intros i d Hd. exists d. repeat split; auto.
  intros [?|(p & Hp & _)]; [done | by apply elem_of_nil in Hp].
Qed.

Lemma add_derived_linked (E : list (string * string)) (child p : string)
    (store store' : list Class.t) :
  linked by_iri store0 E store →
  add_derived by_iri child store p = Return store' →
  linked by_iri store0 (E ++ [(child, p)]) store'.
Proof.
  intros [Hlen Hst]. unfold add_derived.
  destruct (by_iri !! p) as [i|] eqn:Hp; [| done]. intros [= <-].
  split; [by rewrite length_alter |].
  intros j d. destruct (decide (i = j)) as [<-|Hne].
  - rewrite list_lookup_alter_eq.
    destruct (store !! i) as [d1|] eqn:Hd1; [| done]. intros [= <-].
    destruct (Hst i d1 Hd1) as (d0 & Hd0 & Hsame & Hmem).
    exists d0. split; [done |]. split; [exact Hsame |].
    intros x. cbn. rewrite elem_of_app, list_elem_of_singleton, Hmem. split.
    + intros [[?|(q & Hq & Hqi)]| ->]; [by left | right..].
      * exists q. split; [| done]. apply elem_of_app. by left.
      * exists p. split; [| done]. apply elem_of_app. right. left.
    + intros [?|(q & [Hq|[= -> ->]%list_elem_of_singleton]%elem_of_app & Hqi)];
        [by left; left | left; right; eauto | by right].
  - rewrite list_lookup_alter_ne by done. intros Hd.
    destruct (Hst j d Hd) as (d0 & Hd0 & Hsame & Hmem).
    exists d0. split; [done |]. split; [done |].
    intros x. rewrite Hmem. split.
    + intros [?|(q & Hq & Hqj)]; [by left | right].
      exists q. split; [| done]. apply elem_of_app. by left.
    + intros [?|(q & [Hq|[= -> ->]%list_elem_of_singleton]%elem_of_app & Hqj)];
        [by left | right; eauto | congruence].
Qed.

Lemma add_all_linked (child : string) (ps : list string) :
  ∀ E store store',
    linked by_iri store0 E store →
    for_each (add_derived by_iri child) ps store = Return store' →
    linked by_iri store0 (E ++ ((λ p, (child, p)) <$> ps)) store'.
Proof.
  induction ps as [|p ps IH]; intros E store store' HE Hrun.
  - injection Hrun as <-. by rewrite app_nil_r.
  - simpl in Hrun. apply bind_Return in Hrun as (store1 & Hp & Hrun).
    rewrite fmap_cons, cons_middle, app_assoc.
    eapply IH; [| exact Hrun]. by eapply add_derived_linked.
Qed.

Lemma link_all_linked (cs : list Class.t) :
  ∀ E store store',
    linked by_iri store0 E store →
    for_each (λ store c,
                for_each (add_derived by_iri (Class._id c))
                         (Class.parent_ids c) store) cs store
    = Return store' →
    linked by_iri store0 (E ++ edges cs) store'.
Proof.
  induction cs as [|c cs IH]; intros E store store' HE Hrun.
  - injection Hrun as <-. by rewrite app_nil_r.
  - simpl in Hrun. apply bind_Return in Hrun as (store1 & Hc & Hrun).
    unfold edges. rewrite bind_cons, app_assoc.
    eapply IH; [| exact Hrun]. by eapply add_all_linked.
Qed.

Lemma link_derived_linked (store' : list Class.t) :
  link_derived by_iri store0 = Return store' →
  linked by_iri store0 (edges store0) store'.
Proof.
  intros Hrun. apply (link_all_linked store0 [] store0 store');
    [apply linked_start | exact Hrun].
Qed.

End Linker.

Lemma elem_of_edges (cs : list Class.t) (x p : string) :
  (x, p) ∈ edges cs ↔ ∃ c, c ∈ cs ∧ x = Class._id c ∧ p ∈ Class.parent_ids c.
Proof.
  unfold edges. rewrite list_elem_of_bind. split.
  - intros (c & (q & [= -> ->] & Hq)%list_elem_of_fmap & Hc). eauto.
  - intros (c & Hc & -> & Hp). exists c. split; [| done].
    apply list_elem_of_fmap. eauto.
Qed.

(** ** The class list that enters the dependency-ordering loop *)

Section Prepared.

Context (falsy_value : string → bool)
        (compact : string → string)
        (py_int : string → option Z)
        (set_iter : gset string → list string).

(** Iterating a set visits each of its elements once. *)
Hypothesis set_iter_perm : ∀ X, set_iter X ≡ₚ elements X.

Lemma same_fields (d d0 : Class.t) :
  Class.set_derived_ids d [] = Class.set_derived_ids d0 [] →
  Class._id d = Class._id d0
  ∧ Class.parent_ids d = Class.parent_ids d0
  ∧ Class.refable d = Class.refable d0
  ∧ Class.properties d = Class.properties d0.
Proof. destruct d, d0. cbn. by intros [= -> -> -> -> -> ->]. Qed.

Lemma classes_ok_perm (g : Graph) (X : gset string) (cs cs' : list Class.t) :
  cs ≡ₚ cs' → classes_ok g X cs → classes_ok g X cs'.
Proof.
  intros Hperm (Hids & Hall & Hinv). split; [| split].
  - by rewrite <- Hperm.
  - by rewrite <- Hperm.
  - intros c d Hc Hd. apply Hinv; by rewrite Hperm.
Qed.

Lemma prepare_ok (g : Graph) (ids : gmap string string)
    (en : list Enum.t) (cs : list Class.t) :
  prepare falsy_value compact py_int set_iter g = Return (ids, en, cs) →
  classes_ok g (class_iris (classify compact g)) cs
  ∧ en ≡ₚ sp_enums (classify compact g)
  ∧ Sorted (le_by Class._id) cs.
Proof.
  unfold prepare. set (sp := classify compact g).
  intros (b & Hb & H)%bind_Return.
  apply bind_Return in H as (cls1 & Hlink & H).
  injection H as _ <- <-.
  split; [| split; [apply merge_sort_Permutation |]].
  2:{ apply Sorted_merge_sort. intros x y. apply (total String.le). }
  assert (NoDup (set_iter (class_iris sp))) as Hnd.
  { rewrite set_iter_perm. apply NoDup_elements. }
  apply build_classes_spec in Hb as (Hids & Hbuilt & Hby); [| done].
  apply link_derived_linked in Hlink as [Hlen Hst].
  set (cls0 := bl_classes b) in *.
  assert (Class._id <$> cls1 = Class._id <$> cls0) as Hids1.
  { apply list_eq. intros i. rewrite !list_lookup_fmap.
    destruct (cls1 !! i) as [d|] eqn:Hd.
    - destruct (Hst i d Hd) as (d0 & -> & Hsame%same_fields & _).
      simpl. f_equal. apply Hsame.
    - apply lookup_ge_None in Hd. rewrite Hlen in Hd.
      apply lookup_ge_None in Hd. by rewrite Hd. }
  assert (∀ c, c ∈ merge_sort (le_by Class._id) (sort_derived <$> cls1) →
            ∃ i d1 d0, cls1 !! i = Some d1 ∧ cls0 !! i = Some d0
              ∧ Class._id c = Class._id d0
              ∧ Class.parent_ids c = Class.parent_ids d0
              ∧ Class.refable c = Class.refable d0
              ∧ Class.properties c = Class.properties d0
              ∧ Sorted String.le (Class.derived_ids c)
              ∧ ∀ x, x ∈ Class.derived_ids c
                     ↔ ∃ c0, c0 ∈ cls0 ∧ x = Class._id c0
                             ∧ Class._id d0 ∈ Class.parent_ids c0)
    as Helem.
  { intros c Hc. rewrite merge_sort_Permutation in Hc.
    apply list_elem_of_fmap in Hc as (d1 & -> & [i Hi]%list_elem_of_lookup).
    destruct (Hst i d1 Hi) as (d0 & Hd0 & Hsame%same_fields & Hmem).
    destruct Hsame as (E1 & E2 & E3 & E4).
    exists i, d1, d0. cbn. repeat split; try done.
    - apply Sorted_merge_sort. apply _.
    - rewrite merge_sort_Permutation, Hmem.
      intros [Hx|(p & (c0 & Hc0 & -> & Hp)%elem_of_edges & Hpi)].
      + pose proof (proj1 (Forall_forall _ _) Hbuilt d0
                      (list_elem_of_lookup_2 _ _ _ Hd0)) as (_ & Hnil & _).
        rewrite Hnil in Hx. by apply elem_of_nil in Hx.
      + exists c0. split; [done |]. split; [done |].
        apply Hby in Hpi. rewrite <- Hids, list_lookup_fmap, Hd0 in Hpi.
        by injection Hpi as <-.
    - intros (c0 & Hc0 & -> & Hp).
      rewrite merge_sort_Permutation, Hmem. right.
      exists (Class._id d0). split; [apply elem_of_edges; eauto |].
      apply Hby. by rewrite <- Hids, list_lookup_fmap, Hd0. }
  split; [| split].
  - rewrite merge_sort_Permutation, <- list_fmap_compose.
    change (Class._id ∘ sort_derived) with Class._id.
    by rewrite Hids1, Hids.
  - apply Forall_forall. intros c Hc.
    destruct (Helem c Hc)
      as (i & d1 & d0 & _ & Hd0 & E1 & E2 & E3 & E4 & Hsorted & _).
    pose proof (proj1 (Forall_forall _ _) Hbuilt d0
                  (list_elem_of_lookup_2 _ _ _ Hd0))
      as (B1 & _ & B3 & B4 & B5).
    unfold class_ok. by rewrite E1, E2, E3, E4.
  - intros c d Hc Hd.
    destruct (Helem c Hc)
      as (i & c1 & c0 & _ & Hc0 & E1 & E2 & _).
    destruct (Helem d Hd)
      as (j & d1 & d0 & _ & Hd0 & F1 & _ & _ & _ & _ & Hmem).
    rewrite Hmem, E1, E2, F1. split.
    + intros (c' & Hc' & Hid & Hp).
      assert (c' = c0) as ->; [| done].
      eapply (nodup_fmap_eq Class._id cls0); [by rewrite Hids | done | | done].
      by eapply list_elem_of_lookup_2.
    + intros Hp. exists c0. split; [by eapply list_elem_of_lookup_2 | done].
Qed.

End Prepared.

(** ** Where the construction can stop *)

Section Stops.

Context (falsy_value : string → bool)
        (compact : string → string)
        (py_int : string → option Z)
        (set_iter : gset string → list string).

Lemma bind_OutOfFuel {A B} (m : outcome A) (k : A → outcome B) :
  m ≠ OutOfFuel → (∀ a, k a ≠ OutOfFuel) → (x ← m; k x) ≠ OutOfFuel.
Proof. destruct m as [a| |]; simpl; auto. Qed.

Lemma for_each_Raise {A S} (body : S → A → outcome S) (e : exn)
    (l : list A) :
  ∀ st0, for_each body l st0 = Raise e →
         ∃ a st, a ∈ l ∧ body st a = Raise e.
Proof.
  induction l as [|a l IH]; intros st0 Hrun; [done |].
  simpl in Hrun. apply bind_Raise in Hrun as [Ha|(st1 & _ & Hrun)].
  - exists a, st0. split; [left | done].
  - destruct (IH st1 Hrun) as (b & st & Hb & Hst).
    exists b, st. split; [by right | done].
Qed.

Lemma order_loop_no_raise (fuel : nat) :
  ∀ tmp done_ids out e, order_loop fuel tmp done_ids out ≠ Raise e.
Proof.
  induction fuel as [|fuel IH]; intros [|c tmp] done_ids out e; simpl;
    try done.
  destruct (forallb _ _); apply IH.
Qed.

Lemma int_val_fuel (v : option string) : int_val falsy_value py_int v ≠ OutOfFuel.
Proof. unfold int_val. by repeat case_match. Qed.

Lemma resolve_range_fuel (g : Graph) (enum_iris class_iris : gset string)
    (obj_prop prop : string) (p : Property.t) :
  resolve_range falsy_value g enum_iris class_iris obj_prop prop p ≠ OutOfFuel.
Proof. unfold resolve_range. by repeat case_match. Qed.

Lemma build_property_fuel (g : Graph) (enum_iris class_iris : gset string)
    (cls_iri : string) (st : list Property.t * gmap string string)
    (obj_prop : string) :
  build_property falsy_value compact py_int g enum_iris class_iris cls_iri st obj_prop
  ≠ OutOfFuel.
Proof.
  destruct st as [properties ids]. unfold build_property.
  destruct (value g obj_prop SH.path) as [prop|]; [| done].
  destruct (get_compact_id compact ids prop _) as [dflt ids1].
  apply bind_OutOfFuel; [apply int_val_fuel |]. intros max_count.
  apply bind_OutOfFuel; [apply int_val_fuel |]. intros min_count.
  apply bind_OutOfFuel; [apply resolve_range_fuel | done].
Qed.

Lemma build_class_fuel (g : Graph) (enum_iris class_iris : gset string)
    (st : Built) (cls_iri : string) :
  build_class falsy_value compact py_int g enum_iris class_iris st cls_iri ≠ OutOfFuel.
Proof.
  unfold build_class.
  destruct (get_class_name compact (bl_compact_ids st) cls_iri)
    as [clsname ids].
  case_decide; [done |].
  apply bind_OutOfFuel; [| by intros []].
  apply for_each_fuel. intros. apply build_property_fuel.
Qed.

Lemma link_derived_fuel (by_iri : gmap string nat) (cs : list Class.t) :
  link_derived by_iri cs ≠ OutOfFuel.
Proof.
  unfold link_derived. apply for_each_fuel. intros store c.
  apply for_each_fuel. intros store' p. unfold add_derived.
  by case_match.
Qed.

Lemma prepare_fuel (g : Graph) :
  prepare falsy_value compact py_int set_iter g ≠ OutOfFuel.
Proof.
  unfold prepare. apply bind_OutOfFuel.
  - apply for_each_fuel. intros. apply build_class_fuel.
  - intros b. apply bind_OutOfFuel; [apply link_derived_fuel | done].
Qed.

Lemma build_property_raise (g : Graph) (enum_iris class_iris : gset string)
    (cls_iri : string) (st : list Property.t * gmap string string)
    (obj_prop : string) (e : exn) :
  build_property falsy_value compact py_int g enum_iris class_iris cls_iri st obj_prop
  = Raise e →
  ¬ is_refable_error e.
Proof.
  destruct st as [properties ids]. unfold build_property.
  destruct (value g obj_prop SH.path) as [prop|]; [| by intros [= <-] []].
  destruct (get_compact_id compact ids prop _) as [dflt ids1].
  unfold int_val, resolve_range.
  repeat (case_match; simpl); try done; by intros [= <-] [].
Qed.

(** The "unknown referenceable" error comes from the validation of the
    class being built, and from nowhere else. *)
Lemma build_class_raise (g : Graph) (enum_iris class_iris : gset string)
    (st : Built) (cls_iri : string) (cls v : string) :
  build_class falsy_value compact py_int g enum_iris class_iris st cls_iri
  = Raise (UnknownReferenceable cls v) →
  cls = cls_iri
  ∧ v = default "optional" (value g cls_iri SPDXS.referenceable)
  ∧ v ∉ valid_refable.
Proof.
  unfold build_class.
  destruct (get_class_name compact (bl_compact_ids st) cls_iri)
    as [clsname ids].
  cbn [Class.refable Class._id].
  case_decide as Hbad; [by intros [= <- <-] |].
  intros [Hloop|([properties ids'] & _ & H)]%bind_Raise; [| done].
  apply for_each_Raise in Hloop as (obj_prop & st1 & _ & Hp).
  by apply build_property_raise in Hp.
Qed.

Lemma link_derived_raise (by_iri : gmap string nat) (cs : list Class.t)
    (e : exn) :
  link_derived by_iri cs = Raise e → ¬ is_refable_error e.
Proof.
  unfold link_derived.
  intros (c & store & _ & (p & store' & _ & Hp)%for_each_Raise)%for_each_Raise.
  unfold add_derived in Hp. destruct (by_iri !! p); [done |].
  injection Hp as <-. by intros [].
Qed.

Lemma Model_init_Return (fuel : nat) (g : Graph) (m : Model.t) :
  Model_init falsy_value compact py_int set_iter fuel g = Return m →
  ∃ cs, prepare falsy_value compact py_int set_iter g
        = Return (Model.compact_ids m, Model.enums m, cs)
        ∧ order_loop fuel cs ∅ [] = Return (Model.classes m).
Proof.
  unfold Model_init.
  intros ([[ids en] cs] & Hprep & H)%bind_Return.
  apply bind_Return in H as (classes & Hloop & H).
  injection H as <-. by exists cs.
Qed.

End Stops.

(** ** The constructed model *)

Section Constructed.

Context (falsy_value : string → bool)
        (compact : string → string)
        (py_int : string → option Z)
        (set_iter : gset string → list string).

(** Iterating a set visits each of its elements once. *)
Hypothesis set_iter_perm : ∀ X, set_iter X ≡ₚ elements X.

Lemma elem_of_objects (g : Graph) (s p o : string) :
  o ∈ objects g s p ↔ mkTriple s p o ∈ g.
Proof.
  unfold objects. rewrite list_elem_of_fmap. split.
  - intros ([s' p' o'] & -> & [[Hs Hp] Hin]%list_elem_of_filter).
    simpl in *. by subst.
  - intros Hin. exists (mkTriple s p o). split; [done |].
    by apply list_elem_of_filter.
Qed.

Lemma classes_ok_nodup (g : Graph) (X : gset string) (cs : list Class.t) :
  classes_ok g X cs → NoDup (Class._id <$> cs).
Proof. intros (-> & _). apply NoDup_elements. Qed.

Lemma classes_ok_by_id (g : Graph) (X : gset string) (cs : list Class.t)
    (a : string) :
  classes_ok g X cs → (a ∈ X ↔ ∃ c, c ∈ cs ∧ Class._id c = a).
Proof.
  intros (Hids & _). rewrite <- elem_of_elements, <- Hids, list_elem_of_fmap.
  split; intros (c & ? & ?); eauto.
Qed.

Lemma parent_rel_graph (g : Graph) (cs : list Class.t) (a b : string) :
  classes_ok g (class_iris (classify compact g)) cs →
  parent_rel cs a b ↔ structural_parent compact g a b.
Proof.
  intros Hok. pose proof Hok as (_ & Hall & _). split.
  - intros (c & Hc & <- & Hb).
    pose proof (proj1 (Forall_forall _ _) Hall c Hc) as (Hpar & _).
    rewrite Hpar in Hb. apply list_elem_of_filter in Hb as [Hb1 Hb2].
    split; [| split; [done | by apply elem_of_objects]].
    apply (classes_ok_by_id _ _ _ _ Hok). eauto.
  - intros (Ha & Hb & Hab).
    apply (classes_ok_by_id _ _ _ _ Hok) in Ha as (c & Hc & <-).
    exists c. split; [done |]. split; [done |].
    pose proof (proj1 (Forall_forall _ _) Hall c Hc) as (-> & _).
    apply list_elem_of_filter. split; [done | by apply elem_of_objects].
Qed.

Lemma tc_parent_rel_graph (g : Graph) (cs : list Class.t) (a b : string) :
  classes_ok g (class_iris (classify compact g)) cs →
  tc (parent_rel cs) a b ↔ tc (structural_parent compact g) a b.
Proof.
  intros Hok. split; apply (tc_congruence id); intros x y;
    by apply parent_rel_graph.
Qed.

(** The facts every returned model carries. *)
Lemma Model_init_ok (fuel : nat) (g : Graph) (m : Model.t) :
  Model_init falsy_value compact py_int set_iter fuel g = Return m →
  classes_ok g (class_iris (classify compact g)) (Model.classes m)
  ∧ parents_first (Model.classes m)
  ∧ Model.enums m ≡ₚ sp_enums (classify compact g)
  ∧ ∃ cs, prepare falsy_value compact py_int set_iter g
          = Return (Model.compact_ids m, Model.enums m, cs)
          ∧ Model.classes m ≡ₚ cs.
Proof.
  intros (cs & Hprep & Hloop)%Model_init_Return.
  apply order_loop_sound in Hloop as [Hperm Hfirst].
  - pose proof (prepare_ok _ _ _ _ set_iter_perm _ _ _ _ Hprep)
      as (Hok & Hen & _).
    split; [| split; [done | split; [done |]]].
    + eapply classes_ok_perm; [| exact Hok]. done.
    + exists cs. by split.
  - intros p. split; [by intros ?%elem_of_empty |].
    intros (d & Hd & _). by apply elem_of_nil in Hd.
  - intros i c p Hi. by rewrite lookup_nil in Hi.
Qed.

End Constructed.

(** ** The claims *)

Section Claims.

Context (falsy_value : string → bool)
        (compact : string → string)
        (py_int : string → option Z)
        (set_iter : gset string → list string).

(** Iterating a set visits each of its elements once. *)
Hypothesis set_iter_perm : ∀ X, set_iter X ≡ₚ elements X.

(** C1: whenever construction returns a model, its class list is a
    topological order: every parent id of every class in the list is the
    id of a class at an earlier position. *)
Theorem final_order_parents_first (fuel : nat) (g : Graph) (m : Model.t) :
  Model_init falsy_value compact py_int set_iter fuel g = Return m →
  parents_first (Model.classes m).
Proof.
  intros (cs & _ & Hloop)%Model_init_Return.
  apply order_loop_sound in Hloop as [_ Hfirst]; [done | |].
  - intros p. split; [by intros ?%elem_of_empty |].
    intros (d & Hd & _). by apply elem_of_nil in Hd.
  - intros i c p Hi. by rewrite lookup_nil in Hi.
Qed.

(** C2: when the construction reaches the dependency-ordering loop, the
    loop ends (within the square of the number of classes iterations,
    and the model is returned) if the parent relation over the
    structural classes has no cycle, and it never ends if that relation
    has a cycle, a class that is its own parent included. *)
Theorem ordering_terminates_iff_acyclic (g : Graph)
    (ids : gmap string string) (en : list Enum.t) (cs : list Class.t) :
  prepare falsy_value compact py_int set_iter g = Return (ids, en, cs) →
  ((¬ ∃ a, tc (structural_parent compact g) a a) →
   ∀ fuel, length cs * length cs ≤ fuel →
     ∃ m, Model_init falsy_value compact py_int set_iter fuel g = Return m)
  ∧ ((∃ a, tc (structural_parent compact g) a a) →
     ∀ fuel, Model_init falsy_value compact py_int set_iter fuel g = OutOfFuel).
Proof.
  intros Hprep.
  pose proof (prepare_ok _ _ _ _ set_iter_perm _ _ _ _ Hprep) as (Hok & _ & _).
  split.
  - intros Hacyc fuel Hfuel.
    destruct (order_loop_terminates cs) with
      (n := length cs) (tmp := cs) (done_ids := (∅ : gset string))
      (out := @nil Class.t) (fuel := fuel) as [res Hres]; try done.
    + intros (a & Ha). apply Hacyc. exists a.
      by apply (tc_parent_rel_graph compact g cs).
    + intros c p Hc Hp. right.
      assert (parent_rel cs (Class._id c) p) as Hrel by (by exists c).
      apply (parent_rel_graph compact g cs) in Hrel as (_ & Hp' & _);
        [| done].
      by apply (classes_ok_by_id g _ cs p Hok).
    + exists (Model.mk ids en res). unfold Model_init.
      rewrite Hprep. simpl. by rewrite Hres.
  - intros (a & Ha) fuel.
    apply (tc_parent_rel_graph compact g cs) in Ha; [| done].
    unfold Model_init. rewrite Hprep. simpl.
    rewrite (order_loop_diverges cs a); try done.
    + by eapply classes_ok_nodup.
    + assert (∃ y, parent_rel cs a y) as (y & c & Hc & Hid & _)
        by (inversion Ha; eauto).
      exists c. by rewrite Hid.
Qed.

(** C4 (as the code has it): in a returned model every class has the
    referenceable value read from the graph, "optional" when the graph
    has none, and that value is one of the five allowed ones.  When some
    structural class carries a value outside the five, construction
    raises and returns no model.  The "unknown referenceable" error is
    raised only for a structural class that carries such a value.  Other
    fatal errors have other causes. *)
Theorem refable_validated (g : Graph) :
  (∀ fuel m, Model_init falsy_value compact py_int set_iter fuel g = Return m →
     ∀ c, c ∈ Model.classes m →
       Class.refable c
       = default "optional" (value g (Class._id c) SPDXS.referenceable)
       ∧ Class.refable c ∈ valid_refable)
  ∧ ((∃ cls, cls ∈ class_iris (classify compact g)
             ∧ default "optional" (value g cls SPDXS.referenceable)
               ∉ valid_refable) →
     ∀ fuel, ∃ e, Model_init falsy_value compact py_int set_iter fuel g = Raise e)
  ∧ (∀ fuel cls v,
       Model_init falsy_value compact py_int set_iter fuel g
       = Raise (UnknownReferenceable cls v) →
       cls ∈ class_iris (classify compact g)
       ∧ v = default "optional" (value g cls SPDXS.referenceable)
       ∧ v ∉ valid_refable).
Proof.
  split; [| split].
  - intros fuel m Hm c Hc.
    apply (Model_init_ok _ _ _ _ set_iter_perm) in Hm as ((_ & Hall & _) & _).
    pose proof (proj1 (Forall_forall _ _) Hall c Hc) as (_ & H1 & H2 & _).
    done.
  - intros (cls & Hcls & Hbad) fuel.
    destruct (prepare falsy_value compact py_int set_iter g) as [[[ids en] cs]|e|] eqn:Hp.
    + exfalso. unfold prepare in Hp.
      apply bind_Return in Hp as (b & Hb & _).
      unfold build_classes in Hb. revert Hb.
      apply (for_each_stops _ cls).
      * intros st st' (c & _ & _ & Hid & _ & _ & Hr & Hv & _)%build_class_spec.
        apply Hbad. by rewrite <- Hid, <- Hr.
      * rewrite set_iter_perm. by apply elem_of_elements.
    + exists e. unfold Model_init. by rewrite Hp.
    + by apply prepare_fuel in Hp.
  - intros fuel cls v. unfold Model_init.
    intros [Hp|([[ids en] cs] & _ & H)]%bind_Raise.
    2:{ apply bind_Raise in H as [H|(? & _ & H)]; [| done].
        by apply order_loop_no_raise in H. }
    unfold prepare in Hp.
    apply bind_Raise in Hp as [Hb|(b & _ & H)].
    2:{ apply bind_Raise in H as [H|(? & _ & H)]; [| done].
        by apply link_derived_raise in H. }
    apply for_each_Raise in Hb as (a & st & Ha & Hb).
    apply build_class_raise in Hb as (-> & -> & Hbad).
    split; [| done]. apply elem_of_elements. by rewrite <- set_iter_perm.
Qed.

(** C5: in a returned model, for all classes C and D, the id of D is in
    the parent ids of C exactly when the id of C is in the derived ids
    of D, and every list of derived ids is sorted ascending. *)
Theorem derived_ids_inverse (fuel : nat) (g : Graph) (m : Model.t) :
  Model_init falsy_value compact py_int set_iter fuel g = Return m →
  (∀ c d, c ∈ Model.classes m → d ∈ Model.classes m →
     (Class._id d ∈ Class.parent_ids c ↔ Class._id c ∈ Class.derived_ids d))
  ∧ (∀ c, c ∈ Model.classes m →
       StronglySorted String.le (Class.derived_ids c)).
Proof.
  intros ((_ & Hall & Hinv) & _)%(Model_init_ok _ _ _ _ set_iter_perm).
  split.
  - intros c d Hc Hd. symmetry. by apply Hinv.
  - intros c Hc.
    pose proof (proj1 (Forall_forall _ _) Hall c Hc) as (_ & _ & _ & _ & Hs).
    apply Sorted_StronglySorted; [apply _ | done].
Qed.

(** C6: in a returned model, the parent ids of a class contain neither
    the id of an enumeration nor the id of the class itself. *)
Theorem parent_ids_exclude_enums_and_self (fuel : nat) (g : Graph)
    (m : Model.t) :
  Model_init falsy_value compact py_int set_iter fuel g = Return m →
  ∀ c, c ∈ Model.classes m →
    (Class._id c ∉ Class.parent_ids c)
    ∧ (∀ e, e ∈ Model.enums m → Enum._id e ∉ Class.parent_ids c).
Proof.
  intros (Hok & Hfirst & Hen & _)%(Model_init_ok _ _ _ _ set_iter_perm) c Hc.
  split.
  - intros Hself. apply list_elem_of_lookup in Hc as [i Hi].
    destruct (Hfirst i c _ Hi Hself) as (j & d & Hj & Hd & Hid).
    pose proof (classes_ok_nodup _ _ _ Hok) as Hnd.
    assert (j = i); [| lia].
    eapply NoDup_lookup; [exact Hnd | |].
    + by rewrite list_lookup_fmap, Hd.
    + rewrite list_lookup_fmap, Hi. simpl. by rewrite Hid.
  - intros e He Hp. rewrite Hen in He.
    destruct (classify_spec compact g) as (_ & _ & Henum).
    destruct Hok as (_ & Hall & _).
    pose proof (proj1 (Forall_forall _ _) Hall c Hc) as (Hpar & _).
    rewrite Hpar in Hp. apply list_elem_of_filter in Hp as [Hp _].
    by apply (classify_disjoint compact g _ Hp), Henum.
Qed.

(** C8: in a returned model, every property of every class has exactly
    one of the three range fields (enum id, class id, datatype)
    non-empty, and a non-empty pattern only next to a non-empty
    datatype. *)
Theorem property_one_range (fuel : nat) (g : Graph) (m : Model.t) :
  Model_init falsy_value compact py_int set_iter fuel g = Return m →
  ∀ c p, c ∈ Model.classes m → p ∈ Class.properties c → one_range p.
Proof.
  intros ((_ & Hall & _) & _)%(Model_init_ok _ _ _ _ set_iter_perm) c p Hc Hp.
  pose proof (proj1 (Forall_forall _ _) Hall c Hc) as (_ & _ & _ & Hprops & _).
  by apply (proj1 (Forall_forall _ _) Hprops).
Qed.

(** C10: whenever the loop ends, the class list of the returned model is
    a permutation of the class list that entered the loop, and its ids
    are the structural-class ids of the input, each once. *)
Theorem final_order_permutation (fuel : nat) (g : Graph) (m : Model.t) :
  Model_init falsy_value compact py_int set_iter fuel g = Return m →
  ∃ cs, prepare falsy_value compact py_int set_iter g
        = Return (Model.compact_ids m, Model.enums m, cs)
        ∧ Model.classes m ≡ₚ cs
        ∧ Class._id <$> Model.classes m
          ≡ₚ elements (class_iris (classify compact g))
        ∧ NoDup (Class._id <$> Model.classes m).
Proof.
  intros (Hok & _ & _ & cs & Hprep & Hperm)%(Model_init_ok _ _ _ _ set_iter_perm).
  exists cs. split; [done |]. split; [done |].
  split; [apply Hok | by eapply classes_ok_nodup].
Qed.

End Claims.

(** ** The claims on the sample inputs *)

Lemma ex_iter_perm : ∀ X, ex_iter X ≡ₚ elements X.
Proof. intros X. reflexivity. Defined.

Lemma model_shapes_returned :
  Model_init ex_falsy ex_compact ex_int ex_iter 2 graph_shapes = Return model_shapes.
Proof. vm_compute. reflexivity. Defined.

Lemma final_order_parents_first_witness :
  parents_first (Model.classes model_shapes).
Proof.
  apply (final_order_parents_first ex_falsy ex_compact ex_int ex_iter 2 graph_shapes).
  vm_compute. reflexivity.
Defined.

Lemma graph_shapes_edge (x y : string) :
  structural_parent ex_compact graph_shapes x y → x = "ex:B" ∧ y = "ex:A".
Proof.
  intros (_ & _ & H). apply list_elem_of_In in H. cbv in H.
  repeat (destruct H as [H|H]; [try discriminate H |]); [| done].
  by injection H as <- <-.
Defined.

Lemma ordering_terminates_iff_acyclic_witness :
  (∀ fuel, 4 ≤ fuel →
     ∃ m, Model_init ex_falsy ex_compact ex_int ex_iter fuel graph_shapes = Return m)
  ∧ (∀ fuel, Model_init ex_falsy ex_compact ex_int ex_iter fuel graph_cycle = OutOfFuel)
  ∧ (∀ fuel, Model_init ex_falsy ex_compact ex_int ex_iter fuel graph_self_parent
             = OutOfFuel).
Proof.
  split; [| split].
  - intros fuel Hfuel.
    apply (proj1 (ordering_terminates_iff_acyclic ex_falsy ex_compact ex_int ex_iter
                    ex_iter_perm graph_shapes prepared_shapes.1.1
                    prepared_shapes.1.2 prepared_shapes.2
                    ltac:(vm_compute; reflexivity))).
    + intros (a & Ha).
      inversion Ha as [? ? H1|? y ? H1 H2]; subst.
      * by apply graph_shapes_edge in H1 as [-> [=]].
      * apply graph_shapes_edge in H1 as [-> ->].
        inversion H2 as [? ? H3|? ? ? H3 _]; subst;
          by apply graph_shapes_edge in H3 as [[=] _].
    + exact Hfuel.
  - apply (proj2 (ordering_terminates_iff_acyclic ex_falsy ex_compact ex_int ex_iter
                    ex_iter_perm graph_cycle prepared_cycle.1.1
                    prepared_cycle.1.2 prepared_cycle.2
                    ltac:(vm_compute; reflexivity))).
    exists "ex:A". apply tc_l with "ex:B"; [| apply tc_once];
      repeat split; compute_done.
  - apply (proj2 (ordering_terminates_iff_acyclic ex_falsy ex_compact ex_int ex_iter
                    ex_iter_perm graph_self_parent prepared_self_parent.1.1
                    prepared_self_parent.1.2 prepared_self_parent.2
                    ltac:(vm_compute; reflexivity))).
    exists "ex:A". apply tc_once. repeat split; compute_done.
Defined.

Lemma empty_class_restriction_not_fatal :
  value graph_empty_restriction "_:s1" SH.class = Some ""
  ∧ ("" ∉ enum_iris (classify ex_compact graph_empty_restriction))
  ∧ ("" ∉ class_iris (classify ex_compact graph_empty_restriction))
  ∧ Model_init ex_falsy ex_compact ex_int ex_iter 1 graph_empty_restriction
    = Return model_empty_restriction
  ∧ ((λ c, Property.datatype <$> Class.properties c)
       <$> Model.classes model_empty_restriction) = [["xsd:string"]].
Proof.
  split; [reflexivity |]. split; [compute_done |]. split; [compute_done |].
  split; vm_compute; reflexivity.
Qed.

(** The literal 0 as class restriction is falsy as well: the datatype
    restriction is taken. *)
Example zero_class_restriction_takes_datatype :
  (λ c, range_fields <$> Class.properties c)
    <$> Model.classes
          (returned (Model.mk ∅ [] [])
             (Model_init ex_falsy ex_compact ex_int ex_iter 1
                         graph_zero_restriction))
  = [[("", "", "xsd:string", "")]].
Proof. vm_compute. reflexivity. Qed.

Lemma refable_validated_witness :
  (∀ c, c ∈ Model.classes model_shapes →
     Class.refable c
     = default "optional" (value graph_shapes (Class._id c) SPDXS.referenceable)
     ∧ Class.refable c ∈ valid_refable)
  ∧ (∀ fuel, ∃ e, Model_init ex_falsy ex_compact ex_int ex_iter fuel graph_bad_refable
                  = Raise e).
Proof.
  pose proof (refable_validated ex_falsy ex_compact ex_int ex_iter ex_iter_perm) as H.
  split.
  - apply (proj1 (H graph_shapes) 2). exact model_shapes_returned.
  - apply (proj1 (proj2 (H graph_bad_refable))).
    exists "ex:A". split; compute_done.
Defined.

Lemma missing_range_is_another_fatal_error :
  Model_init ex_falsy ex_compact ex_int ex_iter 1 graph_missing_range
  = Raise (MissingRange "ex:A/p")
  ∧ ¬ ∃ cls, cls ∈ class_iris (classify ex_compact graph_missing_range)
             ∧ default "optional"
                 (value graph_missing_range cls SPDXS.referenceable)
               ∉ valid_refable.
Proof.
  split; [vm_compute; reflexivity |].
  intros (cls & Hcls & Hbad).
  assert (class_iris (classify ex_compact graph_missing_range) = {["ex:A"]})
    as Heq by (vm_compute; reflexivity).
  rewrite Heq in Hcls. apply elem_of_singleton in Hcls as ->.
  apply Hbad. compute_done.
Qed.

Lemma derived_ids_inverse_witness :
  (∀ c d, c ∈ Model.classes model_shapes → d ∈ Model.classes model_shapes →
     (Class._id d ∈ Class.parent_ids c ↔ Class._id c ∈ Class.derived_ids d))
  ∧ (∀ c, c ∈ Model.classes model_shapes →
       StronglySorted String.le (Class.derived_ids c)).
Proof.
  apply (derived_ids_inverse ex_falsy ex_compact ex_int ex_iter ex_iter_perm 2
           graph_shapes).
  exact model_shapes_returned.
Defined.

Lemma parent_ids_exclude_enums_and_self_witness :
  Forall (λ c, (Class._id c ∉ Class.parent_ids c)
               ∧ (∀ e, e ∈ Model.enums model_shapes →
                    Enum._id e ∉ Class.parent_ids c))
         (Model.classes model_shapes).
Proof.
  apply Forall_forall.
  apply (parent_ids_exclude_enums_and_self ex_falsy ex_compact ex_int ex_iter
           ex_iter_perm 2 graph_shapes).
  exact model_shapes_returned.
Defined.

Lemma get_compact_id_cached_witness :
  let '(r, ids) := get_compact_id ex_compact ∅ "ex:A" (Some "A") in
  ids !! "ex:A" = Some (ex_compact "ex:A")
  ∧ (∀ k, k ≠ "ex:A" → ids !! k = (∅ : gmap string string) !! k)
  ∧ r = (if decide (ex_compact "ex:A" = "ex:A") then "A"
         else ex_compact "ex:A")
  ∧ get_compact_id ex_compact ids "ex:A" (Some "A") = (r, ids).
Proof.
  apply (get_compact_id_cached ex_compact ex_compact ∅ "ex:A" (Some "A")).
  intros k v Hk. by rewrite lookup_empty in Hk.
Defined.

Lemma fallback_is_not_cached :
  let '(r, ids) := get_compact_id ex_compact ∅ "ex:A" (Some "A") in
  r = "A"
  ∧ ids !! "ex:A" = Some "ex:A"
  ∧ ids !! "ex:A" ≠ Some "A"
  ∧ (get_compact_id ex_compact ids "ex:A" None).1 = "ex:A"
  ∧ (get_compact_id ex_compact ids "ex:A" None).1 ≠ r.
Proof.
  vm_compute. repeat split; congruence.
Qed.

Lemma property_one_range_witness :
  Forall (λ c, Forall one_range (Class.properties c))
         (Model.classes model_shapes).
Proof.
  apply Forall_forall. intros c Hc. apply Forall_forall. intros p Hp.
  apply (property_one_range ex_falsy ex_compact ex_int ex_iter ex_iter_perm 2
           graph_shapes model_shapes model_shapes_returned c p Hc Hp).
Defined.

Lemma common_prefix_linear_reduction_witness :
  common_prefix ["ex:B/name"; "ex:B"; "ex:Bar"] = "ex:B"
  ∧ lcp_fold "ex:B/name" ["ex:B"; "ex:Bar"] = "ex:B".
Proof.
  pose proof (common_prefix_linear_reduction "ex:B/name" ["ex:B"; "ex:Bar"])
    as (H & _).
  split; [| reflexivity]. rewrite H. reflexivity.
Defined.

Lemma final_order_permutation_witness :
  ∃ cs, prepare ex_falsy ex_compact ex_int ex_iter graph_shapes
        = Return (Model.compact_ids model_shapes, Model.enums model_shapes, cs)
        ∧ Model.classes model_shapes ≡ₚ cs
        ∧ Class._id <$> Model.classes model_shapes
          ≡ₚ elements (class_iris (classify ex_compact graph_shapes))
        ∧ NoDup (Class._id <$> Model.classes model_shapes).
Proof.
  apply (final_order_permutation ex_falsy ex_compact ex_int ex_iter ex_iter_perm 2
           graph_shapes).
  exact model_shapes_returned.
Defined.

(** ** More on the prefix helpers *)

Section PrefixMore.

Local Arguments String.append : simpl nomatch.

Lemma prefix_antisym (p : string) : ∀ q,
  String.prefix p q = true → String.prefix q p = true → p = q.
Proof.
  induction p as [|x p IH]; intros [|y q] Hpq Hqp; simpl in *; try done.
  destruct (ascii_dec x y) as [->|]; [| done].
  destruct (ascii_dec y y); [| done]. f_equal. by apply IH.
Qed.

Lemma prefix_split (p : string) : ∀ s,
  String.prefix p s = true →
  p +:+ String.substring (String.length p)
                         (String.length s - String.length p) s = s.
Proof.
  induction p as [|x p IH]; intros s Hp; simpl.
  - rewrite Nat.sub_0_r. clear Hp.
    induction s as [|y s IHs]; simpl; [done | by rewrite IHs].
  - destruct s as [|y s]; simpl in *; [done |].
    destruct (ascii_dec x y) as [->|]; [| done]. by rewrite IH.
Qed.

Lemma lcp_append_l (c : string) : ∀ r, lcp (c +:+ r) c = c.
Proof.
  induction c as [|x c IH]; intros r; simpl.
  - by destruct r.
  - rewrite decide_True by done. by rewrite IH.
Qed.

Lemma substring_append_rest (c r : string) :
  String.substring (String.length c)
                   (String.length (c +:+ r) - String.length c) (c +:+ r) = r.
Proof.
  induction c as [|x c IH]; simpl.
  - rewrite Nat.sub_0_r. induction r as [|y r IHr]; simpl; [done |].
    by rewrite IHr.
  - exact IH.
Qed.

Lemma common_prefix_glb (l : list string) (x : string) (r : list string) :
  l = x :: r →
  (∀ s, s ∈ l → String.prefix (common_prefix l) s = true)
  ∧ (∀ q, (∀ s, s ∈ l → String.prefix q s = true) →
          String.prefix q (common_prefix l) = true).
Proof.
  intros ->. rewrite (common_prefix_fold (x :: r) x r eq_refl). split.
  - intros s. apply lcp_fold_prefix.
  - intros q. apply lcp_fold_greatest.
Qed.

(** X1: [remove_common_prefix] removes exactly the common prefix: the
    common prefix of [val] and the other strings, followed by the
    result, is [val] again. *)
Theorem remove_common_prefix_split (val : string) (cmp : list string) :
  common_prefix (val :: cmp) +:+ remove_common_prefix val cmp = val.
Proof.
  unfold remove_common_prefix. apply prefix_split.
  apply (common_prefix_glb (val :: cmp) val cmp eq_refl). left.
Qed.

(** X2: against a single string that [val] starts with, what is left is
    the rest of [val]: a member identifier that extends the class
    identifier gets the extension as its fallback name. *)
Theorem remove_common_prefix_extension (c r : string) :
  remove_common_prefix (c +:+ r) [c] = r.
Proof.
  unfold remove_common_prefix.
  rewrite (common_prefix_fold [c +:+ r; c] (c +:+ r) [c] eq_refl).
  unfold lcp_fold. simpl. rewrite lcp_append_l.
  apply substring_append_rest.
Qed.

(** X3: [common_prefix] depends only on which strings it is given, not
    on their order or on repetitions. *)
Theorem common_prefix_same_strings (l l' : list string) :
  (∀ s, s ∈ l ↔ s ∈ l') → common_prefix l = common_prefix l'.
Proof.
  intros Hsame. destruct l as [|x r], l' as [|y r'].
  - done.
  - exfalso. apply (elem_of_nil y), Hsame. left.
  - exfalso. apply (elem_of_nil x), Hsame. left.
  - destruct (common_prefix_glb (x :: r) x r eq_refl) as [H1 H2].
    destruct (common_prefix_glb (y :: r') y r' eq_refl) as [H3 H4].
    apply prefix_antisym.
    + apply H4. intros s Hs. apply H1. by apply Hsame.
    + apply H2. intros s Hs. apply H3. by apply Hsame.
Qed.

End PrefixMore.

Lemma common_prefix_same_strings_witness :
  common_prefix ["ex:B/name"; "ex:B"; "ex:Bar"]
  = common_prefix ["ex:Bar"; "ex:B"; "ex:B/name"; "ex:B"].
Proof.
  apply common_prefix_same_strings. intros s.
  rewrite !elem_of_cons, !elem_of_nil. tauto.
Defined.

(** ** What the records hold *)

Section Described.

Context (falsy_value : string → bool)
        (compact : string → string)
        (py_int : string → option Z)
        (set_iter : gset string → list string).

Lemma get_compact_id_spec (ids : gmap string string) (_id : string)
    (fallback : option string) :
  cache_ok compact ids →
  cache_ok compact (get_compact_id compact ids _id fallback).2
  ∧ ids ⊆ (get_compact_id compact ids _id fallback).2
  ∧ cached compact (get_compact_id compact ids _id fallback).2 _id
  ∧ (get_compact_id compact ids _id fallback).1
    = match fallback with
      | Some fb => if decide (compact _id = _id) then fb else compact _id
      | None => compact _id
      end.
Proof.
  intros Hok. split; [by apply get_compact_id_cache_ok |].
  rewrite get_compact_id_result, get_compact_id_cache. unfold cached.
  destruct (ids !! _id) as [v|] eqn:E; simpl.
  - pose proof (Hok _ _ E) as Hv. subst v. done.
  - split; [by apply insert_subseteq |]. by rewrite lookup_insert_eq.
Qed.

Lemma get_class_name_spec (ids : gmap string string) (c : string) :
  cache_ok compact ids →
  cache_ok compact (get_class_name compact ids c).2
  ∧ ids ⊆ (get_class_name compact ids c).2
  ∧ cached compact (get_class_name compact ids c).2 c
  ∧ (get_class_name compact ids c).1 = replace_char ":" "_" (compact c).
Proof.
  intros Hok. unfold get_class_name.
  destruct (get_compact_id_spec ids c None Hok) as (H1 & H2 & H3 & H4).
  destruct (get_compact_id compact ids c None) as [n ids']. simpl in *.
  by rewrite H4.
Qed.

Lemma cached_weaken (ids ids' : gmap string string) (k : string) :
  ids ⊆ ids' → cached compact ids k → cached compact ids' k.
Proof. intros Hsub Hk. by eapply lookup_weaken. Qed.

Lemma resolve_range_keeps (g : Graph) (enum_iris class_iris : gset string)
    (obj_prop prop : string) (p p' : Property.t) :
  resolve_range falsy_value g enum_iris class_iris obj_prop prop p = Return p' →
  Property.path p' = Property.path p
  ∧ Property.varname p' = Property.varname p
  ∧ Property.comment p' = Property.comment p
  ∧ Property.max_count p' = Property.max_count p
  ∧ Property.min_count p' = Property.min_count p.
Proof.
  unfold resolve_range.
  repeat case_match; try done; by intros [= <-].
Qed.

Lemma build_property_full (g : Graph) (enum_iris class_iris : gset string)
    (cls_iri : string) (st st' : list Property.t * gmap string string)
    (obj_prop : string) :
  cache_ok compact st.2 →
  build_property falsy_value compact py_int g enum_iris class_iris cls_iri st obj_prop
  = Return st' →
  ∃ p, st'.1 = st.1 ++ [p]
       ∧ shape_property falsy_value compact py_int g enum_iris class_iris
                       cls_iri obj_prop p
       ∧ cache_ok compact st'.2 ∧ st.2 ⊆ st'.2
       ∧ cached compact st'.2 (Property.path p).
Proof.
  destruct st as [properties ids]. cbn [fst snd]. intros Hok.
  unfold build_property.
  destruct (value g obj_prop SH.path) as [prop|] eqn:Hpath; [| done].
  destruct (get_compact_id_spec ids prop
              (Some (remove_common_prefix prop [cls_iri])) Hok)
    as (H1 & H2 & H3 & H4).
  destruct (get_compact_id compact ids prop _) as [dflt ids1]. simpl in *.
  intros (max_count & Hmax & H)%bind_Return.
  apply bind_Return in H as (min_count & Hmin & H).
  apply bind_Return in H as (p & Hp & H).
  injection H as <-. exists p. simpl.
  pose proof (resolve_range_keeps _ _ _ _ _ _ _ Hp) as (E1 & E2 & E3 & E4 & E5).
  simpl in E1, E2, E3, E4, E5.
  split; [done |]. split; [| by rewrite E1].
  unfold shape_property, default_varname, without_range. subst dflt.
  rewrite E1, E2, E3, E4, E5, Hpath, Hmax, Hmin.
  repeat split; try done.
Qed.

Lemma build_class_full (g : Graph) (enum_iris class_iris : gset string)
    (st st' : Built) (cls_iri : string) :
  cache_ok compact (bl_compact_ids st) →
  build_class falsy_value compact py_int g enum_iris class_iris st cls_iri = Return st' →
  ∃ c, bl_classes st' = bl_classes st ++ [c]
       ∧ Class._id c = cls_iri
       ∧ class_described falsy_value compact py_int g enum_iris class_iris c
       ∧ cache_ok compact (bl_compact_ids st')
       ∧ bl_compact_ids st ⊆ bl_compact_ids st'
       ∧ cached compact (bl_compact_ids st') cls_iri
       ∧ Forall (λ p, cached compact (bl_compact_ids st') (Property.path p))
                (Class.properties c).
Proof.
  intros Hok. unfold build_class.
  destruct (get_class_name_spec (bl_compact_ids st) cls_iri Hok)
    as (H1 & H2 & H3 & H4).
  destruct (get_class_name compact (bl_compact_ids st) cls_iri)
    as [clsname ids]. simpl in H1, H2, H3, H4.
  cbn [Class.refable Class._id].
  case_decide as Hrefable; [done |].
  intros ([properties ids'] & Hloop & H)%bind_Return.
  injection H as <-. eexists. cbn. split; [done |]. split; [done |].
  assert (Forall2 (shape_property falsy_value compact py_int g enum_iris class_iris
                       cls_iri)
                  (objects g cls_iri SH.property) (properties, ids').1
          ∧ cache_ok compact (properties, ids').2
          ∧ ids ⊆ (properties, ids').2
          ∧ Forall (λ p, cached compact (properties, ids').2 (Property.path p))
                   (properties, ids').1) as (F1 & F2 & F3 & F4).
  { eapply (for_each_inv _
              (λ pre st,
                 Forall2 (shape_property falsy_value compact py_int g enum_iris class_iris
                       cls_iri) pre st.1
                 ∧ cache_ok compact st.2 ∧ ids ⊆ st.2
                 ∧ Forall (λ p, cached compact st.2 (Property.path p)) st.1));
      [| | | exact Hloop].
    - intros pre a post st1 st2 _ (G1 & G2 & G3 & G4) Hbody.
      apply build_property_full in Hbody as (p & -> & Hp & K1 & K2 & K3);
        [| done].
      split; [| split; [done | split; [by etrans |]]].
      + apply Forall2_app; [done |]. by constructor.
      + apply Forall_app. split; [| by constructor].
        eapply Forall_impl; [exact G4 |]. intros q. by apply cached_weaken.
    - by instantiate (1 := []).
    - simpl. by repeat split. }
  simpl in *. repeat split; try done.
  - by etrans.
  - by eapply cached_weaken.
Qed.

Lemma build_classes_full (g : Graph) (sp : Split) (b : Built) :
  cache_ok compact (sp_compact_ids sp) →
  build_classes falsy_value compact py_int set_iter g sp = Return b →
  cache_ok compact (bl_compact_ids b)
  ∧ sp_compact_ids sp ⊆ bl_compact_ids b
  ∧ Forall (λ c, class_described falsy_value compact py_int g
                                 (enum_iris sp) (class_iris sp) c
                 ∧ cached compact (bl_compact_ids b) (Class._id c)
                 ∧ Forall (λ p, cached compact (bl_compact_ids b)
                                       (Property.path p))
                          (Class.properties c))
           (bl_classes b).
Proof.
  intros Hok Hrun. unfold build_classes in Hrun.
  eapply (for_each_inv _
            (λ _ st,
               cache_ok compact (bl_compact_ids st)
               ∧ sp_compact_ids sp ⊆ bl_compact_ids st
               ∧ Forall (λ c, class_described falsy_value compact py_int g
                                 (enum_iris sp) (class_iris sp) c
                              ∧ cached compact (bl_compact_ids st) (Class._id c)
                              ∧ Forall (λ p, cached compact (bl_compact_ids st)
                                                    (Property.path p))
                                       (Class.properties c))
                        (bl_classes st)));
    [| | | exact Hrun].
  - intros pre a post st st' _ (G1 & G2 & G3) Hbody.
    apply build_class_full in Hbody
      as (c & -> & Hid & Hc & K1 & K2 & K3 & K4); [| done].
    split; [done |]. split; [by etrans |].
    apply Forall_app. split.
    + eapply Forall_impl; [exact G3 |]. intros d (D1 & D2 & D3).
      split; [done |]. split; [by eapply cached_weaken |].
      eapply Forall_impl; [exact D3 |]. intros q. by apply cached_weaken.
    + constructor; [| constructor]. by rewrite Hid.
  - by instantiate (1 := []).
  - simpl. split; [done |]. split; [done | constructor].
Qed.

Lemma classify_full (g : Graph) :
  cache_ok compact (sp_compact_ids (classify compact g))
  ∧ Forall (λ e, enum_described compact g e
                 ∧ cached compact (sp_compact_ids (classify compact g))
                          (Enum._id e))
           (sp_enums (classify compact g)).
Proof.
  unfold classify. apply foldl_inv.
  - intros st x (Hok & Hall). unfold classify_step.
    destruct (enum_values_of g x) as [|v vs] eqn:E; [done |].
    destruct (get_class_name_spec (sp_compact_ids st) x Hok)
      as (H1 & H2 & H3 & H4).
    destruct (get_class_name compact (sp_compact_ids st) x)
      as [clsname ids]. simpl in *.
    split; [done |]. apply Forall_app. split.
    + eapply Forall_impl; [exact Hall |]. intros e [D1 D2].
      split; [done | by eapply cached_weaken].
    + constructor; [| constructor]. split; [| done].
      unfold enum_described. simpl. by rewrite E, H4.
  - simpl. split; [| constructor]. intros k v Hk. by rewrite lookup_empty in Hk.
Qed.

Lemma same_fields_rest (d d0 : Class.t) :
  Class.set_derived_ids d [] = Class.set_derived_ids d0 [] →
  Class._id d = Class._id d0
  ∧ Class.clsname d = Class.clsname d0
  ∧ Class.comment d = Class.comment d0
  ∧ Class.id_property d = Class.id_property d0
  ∧ Class.properties d = Class.properties d0.
Proof. destruct d, d0. cbn. by intros [= -> -> -> -> -> -> ->]. Qed.

(** Every record of the prepared list is a record of the class-building
    loop, up to its derived ids. *)
Lemma prepare_origin (g : Graph) (ids : gmap string string)
    (en : list Enum.t) (cs : list Class.t) :
  prepare falsy_value compact py_int set_iter g = Return (ids, en, cs) →
  ∃ b, build_classes falsy_value compact py_int set_iter g (classify compact g) = Return b
       ∧ ids = bl_compact_ids b
       ∧ en = merge_sort (le_by Enum._id) (sp_enums (classify compact g))
       ∧ ∀ c, c ∈ cs →
           ∃ d0, d0 ∈ bl_classes b
                 ∧ Class.set_derived_ids c [] = Class.set_derived_ids d0 [].
Proof.
  unfold prepare. intros (b & Hb & H)%bind_Return.
  apply bind_Return in H as (cls1 & Hlink & H). injection H as <- <- <-.
  exists b. repeat split; try done.
  intros c Hc. rewrite merge_sort_Permutation in Hc.
  apply list_elem_of_fmap in Hc as (d1 & -> & [i Hi]%list_elem_of_lookup).
  apply link_derived_linked in Hlink as [_ Hst].
  destruct (Hst i d1 Hi) as (d0 & Hd0 & Hsame & _).
  exists d0. split; [by eapply list_elem_of_lookup_2 | exact Hsame].
Qed.

Lemma Model_init_described (fuel : nat) (g : Graph) (m : Model.t) :
  Model_init falsy_value compact py_int set_iter fuel g = Return m →
  cache_ok compact (Model.compact_ids m)
  ∧ (∀ c, c ∈ Model.classes m →
       class_described falsy_value compact py_int g
                       (enum_iris (classify compact g))
                       (class_iris (classify compact g)) c
       ∧ cached compact (Model.compact_ids m) (Class._id c)
       ∧ Forall (λ p, cached compact (Model.compact_ids m) (Property.path p))
                (Class.properties c))
  ∧ (∀ e, e ∈ Model.enums m →
       enum_described compact g e
       ∧ cached compact (Model.compact_ids m) (Enum._id e))
  ∧ Model.enums m
    = merge_sort (le_by Enum._id) (sp_enums (classify compact g)).
Proof.
  intros (cs & Hprep & Hloop)%Model_init_Return.
  apply order_loop_sound in Hloop as [Hperm _].
  2:{ intros p. split; [by intros ?%elem_of_empty |].
      intros (d & Hd & _). by apply elem_of_nil in Hd. }
  2:{ intros i c p Hi. by rewrite lookup_nil in Hi. }
  apply prepare_origin in Hprep as (b & Hb & Hids & Hen & Horigin).
  destruct (classify_full g) as [Hok0 Henums].
  apply build_classes_full in Hb as (Hok & Hsub & Hall); [| done].
  rewrite Hids. split; [done |]. split; [| split; [| done]].
  - intros c Hc. rewrite Hperm in Hc. simpl in Hc.
    destruct (Horigin c Hc) as (d0 & Hd0 & Hsame%same_fields_rest).
    destruct Hsame as (E1 & E2 & E3 & E4 & E5).
    pose proof (proj1 (Forall_forall _ _) Hall d0 Hd0) as (Hd & K1 & K2).
    unfold class_described. by rewrite E1, E2, E3, E4, E5.
  - intros e He. rewrite Hen, merge_sort_Permutation in He.
    pose proof (proj1 (Forall_forall _ _) Henums e He) as [D1 D2].
    split; [done | by eapply cached_weaken].
Qed.

End Described.

(** ** The range of the stored properties *)

Section RangeResolved.

Context (falsy_value : string → bool)
        (compact : string → string)
        (py_int : string → option Z)
        (set_iter : gset string → list string).

(** Iterating a set visits each of its elements once. *)
Hypothesis set_iter_perm : ∀ X, set_iter X ≡ₚ elements X.

Lemma shape_property_range (g : Graph) (enum_iris class_iris : gset string)
    (cls_iri s : string) (p : Property.t) :
  shape_property falsy_value compact py_int g enum_iris class_iris cls_iri s p →
  range_by_precedence falsy_value g enum_iris class_iris s p.
Proof.
  intros (Hpath & _ & _ & _ & _ & Hres).
  destruct (resolve_range_cases falsy_value g enum_iris class_iris s
              (Property.path p) (without_range p)) as (C1 & C2 & C3 & C4).
  split; [done |]. split; [| split; [| split]].
  - intros r Hr. rewrite (C1 r Hr) in Hres.
    repeat case_decide; try done; injection Hres as Hres;
      apply (f_equal range_fields) in Hres; cbn in Hres; auto.
  - intros Hc r Hd. rewrite (C2 Hc r Hd) in Hres. injection Hres as Hres.
    apply (f_equal range_fields) in Hres. rewrite <- Hres.
    by destruct (truthy falsy_value (value g s SH.pattern)).
  - intros Hc Hd r Hr. rewrite (C3 Hc Hd r Hr) in Hres.
    repeat case_decide; injection Hres as Hres;
      apply (f_equal range_fields) in Hres; cbn in Hres; auto.
  - intros (Hc & Hd & Hr). by rewrite (C4 Hc Hd Hr) in Hres.
Qed.

(** Once the class-building loop has returned, every property shape of
    every structural class has its property. *)
Lemma built_shape_has_property (g : Graph) (b : Built) (cls s : string) :
  build_classes falsy_value compact py_int set_iter g (classify compact g)
  = Return b →
  cls ∈ class_iris (classify compact g) →
  s ∈ objects g cls SH.property →
  ∃ p, shape_property falsy_value compact py_int g
         (enum_iris (classify compact g)) (class_iris (classify compact g))
         cls s p.
Proof.
  intros Hb Hcls Hs.
  destruct (classify_full compact g) as [Hok0 _].
  pose proof (build_classes_full _ _ _ _ _ _ _ Hok0 Hb) as (_ & _ & Hall).
  apply build_classes_spec in Hb as (Hids & _ & _).
  2:{ rewrite set_iter_perm. apply NoDup_elements. }
  apply elem_of_elements in Hcls. rewrite <- set_iter_perm, <- Hids in Hcls.
  apply list_elem_of_fmap in Hcls as (d & -> & Hd).
  pose proof (proj1 (Forall_forall _ _) Hall d Hd)
    as ((_ & _ & _ & Hshapes) & _).
  apply list_elem_of_lookup in Hs as [i Hi].
  destruct (Forall2_lookup_l _ _ _ _ _ Hshapes Hi) as (p & _ & Hp).
  by exists p.
Qed.

(** C3 (as the code has it): the range of every property stored in a
    returned model is resolved from its shape in strict precedence over
    the known enumeration and structural-class ids, where a restriction
    or range counts as asserted only when its value is truthy in Python
    (not the empty term and not a literal whose value is zero or false).
    A class restriction gives an enum reference for a known enumeration
    id and a class reference for a known structural class id; else a
    datatype restriction gives that datatype with the shape's truthy
    pattern, if any; else the range of the path gives an enum reference,
    a class reference or, for any other value, a datatype without
    pattern.  A shape of a structural class with a class restriction
    that is neither kind of id, or with none of the three, makes the
    construction raise: no model is returned; the error raised for the
    shape is "unknown class restriction", respectively "missing
    range". *)
Theorem resolve_range_precedence (g : Graph) :
  (∀ fuel m,
     Model_init falsy_value compact py_int set_iter fuel g = Return m →
     ∀ c, c ∈ Model.classes m →
       Forall2 (range_by_precedence falsy_value g
                  (enum_iris (classify compact g))
                  (class_iris (classify compact g)))
               (objects g (Class._id c) SH.property) (Class.properties c))
  ∧ (∀ cls s prop,
       cls ∈ class_iris (classify compact g) →
       s ∈ objects g cls SH.property →
       value g s SH.path = Some prop →
       (∃ r, asserts falsy_value g s SH.class r
             ∧ (r ∉ enum_iris (classify compact g))
             ∧ (r ∉ class_iris (classify compact g)))
       ∨ (asserts_none falsy_value g s SH.class
          ∧ asserts_none falsy_value g s SH.datatype
          ∧ asserts_none falsy_value g prop RDFS.range) →
       ∀ fuel, ∃ e,
         Model_init falsy_value compact py_int set_iter fuel g = Raise e)
  ∧ (∀ s prop varname comment max_count min_count,
       (∀ r, asserts falsy_value g s SH.class r →
          r ∉ enum_iris (classify compact g) →
          r ∉ class_iris (classify compact g) →
          resolve_range falsy_value g (enum_iris (classify compact g))
            (class_iris (classify compact g)) s prop
            (Property.mk prop varname comment max_count min_count
                         "" "" "" "")
          = Raise (UnknownClassRestriction prop r))
       ∧ (asserts_none falsy_value g s SH.class →
          asserts_none falsy_value g s SH.datatype →
          asserts_none falsy_value g prop RDFS.range →
          resolve_range falsy_value g (enum_iris (classify compact g))
            (class_iris (classify compact g)) s prop
            (Property.mk prop varname comment max_count min_count
                         "" "" "" "")
          = Raise (MissingRange prop))).
Proof.
  split; [| split].
  - intros fuel m (_ & Hcls & _)%Model_init_described c Hc.
    destruct (Hcls c Hc) as ((_ & _ & _ & Hshapes) & _).
    eapply Forall2_impl; [exact Hshapes |].
    intros s p. apply shape_property_range.
  - intros cls s prop Hcls Hs Hpath Hfault fuel.
    destruct (prepare falsy_value compact py_int set_iter g)
      as [[[ids en] cs]|e|] eqn:Hprep.
    + exfalso. unfold prepare in Hprep.
      apply bind_Return in Hprep as (b & Hb & _).
      destruct (built_shape_has_property g b cls s Hb Hcls Hs)
        as (p & Hp' & _ & _ & _ & _ & Hres).
      assert (Property.path p = prop) as Hprop by congruence.
      rewrite Hprop in Hres.
      destruct (resolve_range_cases falsy_value g
                  (enum_iris (classify compact g))
                  (class_iris (classify compact g)) s prop (without_range p))
        as (C1 & _ & _ & C4).
      destruct Hfault as [(r & Hr & Hne & Hnc)|(Hc & Hd & Hr)].
      * rewrite (C1 r Hr), !decide_False in Hres by done. done.
      * by rewrite (C4 Hc Hd Hr) in Hres.
    + exists e. unfold Model_init. by rewrite Hprep.
    + by apply prepare_fuel in Hprep.
  - intros s prop varname comment max_count min_count.
    destruct (resolve_range_cases falsy_value g
                (enum_iris (classify compact g))
                (class_iris (classify compact g)) s prop
                (Property.mk prop varname comment max_count min_count
                             "" "" "" "")) as (C1 & _ & _ & C4).
    split; [| exact C4].
    intros r Hr Hne Hnc. by rewrite (C1 r Hr), !decide_False.
Qed.

End RangeResolved.

Lemma resolve_range_precedence_witness :
  Forall (λ c,
            Forall2 (range_by_precedence ex_falsy graph_shapes
                       (enum_iris (classify ex_compact graph_shapes))
                       (class_iris (classify ex_compact graph_shapes)))
                    (objects graph_shapes (Class._id c) SH.property)
                    (Class.properties c))
         (Model.classes model_shapes)
  ∧ (∀ fuel, ∃ e, Model_init ex_falsy ex_compact ex_int ex_iter fuel
                    graph_missing_range = Raise e).
Proof.
  pose proof (resolve_range_precedence ex_falsy ex_compact ex_int ex_iter
                ex_iter_perm) as H.
  split.
  - apply Forall_forall. apply (proj1 (H graph_shapes) 2).
    exact model_shapes_returned.
  - apply (proj1 (proj2 (H graph_missing_range)) "ex:A" "_:s1" "ex:A/p").
    + compute_done.
    + compute_done.
    + reflexivity.
    + right. repeat split; by left.
Defined.

(** ** Names, cache and properties of the returned model *)

Section ModelFields.

Context (falsy_value : string → bool)
        (compact : string → string)
        (py_int : string → option Z)
        (set_iter : gset string → list string).

Lemma replace_char_gone (old new : ascii) (s : string) :
  old ≠ new → old ∉ list_ascii_of_string (replace_char old new s).
Proof.
  intros Hne. induction s as [|c s IH]; simpl.
  - apply not_elem_of_nil.
  - apply not_elem_of_cons. split; [| done]. by case_decide.
Qed.

Lemma int_val_Return (v : option string) (n : option Z) :
  int_val falsy_value py_int v = Return n →
  n = truthy falsy_value v ≫= py_int ∧ (is_Some (truthy falsy_value v) → is_Some n).
Proof.
  unfold int_val. destruct (truthy falsy_value v) as [x|]; simpl.
  - destruct (py_int x) as [k|]; [| done]. intros [= <-]. eauto.
  - intros [= <-]. split; [done |]. by intros [? ?].
Qed.

(** X4: in a returned model the code name of every class and of every
    enumeration is the compacted id with each colon replaced by an
    underscore, whatever the cache held when it was computed; it
    contains no colon. *)
Theorem class_names_are_compacted (fuel : nat) (g : Graph) (m : Model.t) :
  Model_init falsy_value compact py_int set_iter fuel g = Return m →
  (∀ c, c ∈ Model.classes m →
     Class.clsname c = replace_char ":" "_" (compact (Class._id c))
     ∧ ":"%char ∉ list_ascii_of_string (Class.clsname c))
  ∧ (∀ e, e ∈ Model.enums m →
       Enum.clsname e = replace_char ":" "_" (compact (Enum._id e))
       ∧ ":"%char ∉ list_ascii_of_string (Enum.clsname e)).
Proof.
  intros (_ & Hcls & Hen & _)%Model_init_described. split.
  - intros c Hc. destruct (Hcls c Hc) as ((-> & _) & _).
    split; [done |]. by apply replace_char_gone.
  - intros e He. destruct (Hen e He) as ((-> & _) & _).
    split; [done |]. by apply replace_char_gone.
Qed.

(** X5: the cache of a returned model maps every key to the compaction
    of that key (never to a fallback), and it has an entry for every
    class id, every enumeration id and every property path. *)
Theorem model_cache_holds_compactions (fuel : nat) (g : Graph)
    (m : Model.t) :
  Model_init falsy_value compact py_int set_iter fuel g = Return m →
  cache_ok compact (Model.compact_ids m)
  ∧ (∀ c, c ∈ Model.classes m →
       Model.compact_ids m !! Class._id c = Some (compact (Class._id c))
       ∧ ∀ p, p ∈ Class.properties c →
           Model.compact_ids m !! Property.path p
           = Some (compact (Property.path p)))
  ∧ (∀ e, e ∈ Model.enums m →
       Model.compact_ids m !! Enum._id e = Some (compact (Enum._id e))).
Proof.
  intros (Hok & Hcls & Hen & _)%Model_init_described.
  split; [done |]. split.
  - intros c Hc. destruct (Hcls c Hc) as (_ & H1 & H2).
    split; [done |]. intros p Hp. by apply (proj1 (Forall_forall _ _) H2).
  - intros e He. by destruct (Hen e He) as [_ H].
Qed.

(** X6: in a returned model every class has one property per property
    shape of the class, in the order of the shapes, and the path of the
    property is the [sh:path] of its shape; in particular every shape
    has a path. *)
Theorem properties_follow_shapes (fuel : nat) (g : Graph) (m : Model.t) :
  Model_init falsy_value compact py_int set_iter fuel g = Return m →
  ∀ c, c ∈ Model.classes m →
    Some <$> (Property.path <$> Class.properties c)
    = (λ s, value g s SH.path) <$> objects g (Class._id c) SH.property.
Proof.
  intros (_ & Hcls & _)%Model_init_described c Hc.
  destruct (Hcls c Hc) as ((_ & _ & _ & Hshapes) & _).
  induction Hshapes as [|s p shapes props (Hpath & _) _ IH]; [done |].
  rewrite !fmap_cons. by rewrite IH, Hpath.
Qed.

(** X7: in a returned model the name of a property is the [sh:name] of
    its shape when the shape has one; otherwise it is the compacted
    path, or, when compaction leaves the path as it is, what remains of
    the path after its common prefix with the class id. *)
Theorem property_names (fuel : nat) (g : Graph) (m : Model.t) :
  Model_init falsy_value compact py_int set_iter fuel g = Return m →
  ∀ c, c ∈ Model.classes m →
    Forall2 (λ s p,
               Property.varname p
               = match value g s SH.name with
                 | Some n => n
                 | None =>
                     if decide (compact (Property.path p) = Property.path p)
                     then remove_common_prefix (Property.path p) [Class._id c]
                     else compact (Property.path p)
                 end)
            (objects g (Class._id c) SH.property) (Class.properties c).
Proof.
  intros (_ & Hcls & _)%Model_init_described c Hc.
  destruct (Hcls c Hc) as ((_ & _ & _ & Hshapes) & _).
  eapply Forall2_impl; [exact Hshapes |].
  intros s p (_ & -> & _). unfold default_varname.
  by destruct (value g s SH.name).
Qed.

(** X8: in a returned model the maximum (minimum) count of a property
    is absent when its shape has no value for it or a falsy one (the
    empty term, or a literal whose value is zero), and is otherwise the
    integer parsed from the value. *)
Theorem property_counts (fuel : nat) (g : Graph) (m : Model.t) :
  Model_init falsy_value compact py_int set_iter fuel g = Return m →
  ∀ c, c ∈ Model.classes m →
    Forall2 (λ s p,
               (asserts_none falsy_value g s SH.maxCount →
                Property.max_count p = None)
               ∧ (∀ v, asserts falsy_value g s SH.maxCount v →
                    ∃ n, py_int v = Some n ∧ Property.max_count p = Some n)
               ∧ (asserts_none falsy_value g s SH.minCount →
                  Property.min_count p = None)
               ∧ (∀ v, asserts falsy_value g s SH.minCount v →
                    ∃ n, py_int v = Some n ∧ Property.min_count p = Some n))
            (objects g (Class._id c) SH.property) (Class.properties c).
Proof.
  intros (_ & Hcls & _)%Model_init_described c Hc.
  destruct (Hcls c Hc) as ((_ & _ & _ & Hshapes) & _).
  eapply Forall2_impl; [exact Hshapes |].
  intros s p (_ & _ & _ & [H1 H2]%int_val_Return & [H3 H4]%int_val_Return & _).
  repeat split.
  - intros Hnone. by rewrite H1, (truthy_asserts_none _ _ _ _ Hnone).
  - intros v Hv. rewrite (truthy_asserts _ _ _ _ _ Hv) in H1, H2.
    destruct H2 as [n Hn]; [by eexists |]. exists n. split; [| done].
    rewrite Hn in H1. by simpl in H1.
  - intros Hnone. by rewrite H3, (truthy_asserts_none _ _ _ _ Hnone).
  - intros v Hv. rewrite (truthy_asserts _ _ _ _ _ Hv) in H3, H4.
    destruct H4 as [n Hn]; [by eexists |]. exists n. split; [| done].
    rewrite Hn in H3. by simpl in H3.
Qed.

(** X9: in a returned model the comment and the id property of a class,
    and the comment of a property, are the ones the graph gives for the
    class id and for the property path: the comment defaults to the
    empty string, the id property to none. *)
Theorem comments_and_id_property (fuel : nat) (g : Graph) (m : Model.t) :
  Model_init falsy_value compact py_int set_iter fuel g = Return m →
  ∀ c, c ∈ Model.classes m →
    Class.comment c = default "" (value g (Class._id c) RDFS.comment)
    ∧ Class.id_property c = value g (Class._id c) SPDXS.idPropertyName
    ∧ ∀ p, p ∈ Class.properties c →
        Property.comment p
        = default "" (value g (Property.path p) RDFS.comment).
Proof.
  intros (_ & Hcls & _)%Model_init_described c Hc.
  destruct (Hcls c Hc) as ((_ & H1 & H2 & Hshapes) & _).
  split; [done |]. split; [done |]. intros p Hp.
  apply (Forall2_Forall_r _ (λ p, Property.comment p
                                  = default "" (value g (Property.path p)
                                                      RDFS.comment))) in Hshapes.
  - by apply (proj1 (Forall_forall _ _) Hshapes).
  - apply Forall_forall. intros s _ q (_ & _ & H & _). done.
Qed.

End ModelFields.

(** ** Enumerations *)

Section Enumerations.

Context (falsy_value : string → bool)
        (compact : string → string)
        (py_int : string → option Z)
        (set_iter : gset string → list string).

Lemma elem_of_subjects (g : Graph) (s p o : string) :
  s ∈ subjects g p o ↔ mkTriple s p o ∈ g.
Proof.
  unfold subjects. rewrite list_elem_of_fmap. split.
  - intros ([s' p' o'] & -> & [[Hp Ho] Hin]%list_elem_of_filter).
    simpl in *. by subst.
  - intros Hin. exists (mkTriple s p o). split; [done |].
    by apply list_elem_of_filter.
Qed.

Lemma elem_of_enum_values_of (g : Graph) (cls_iri : string) (v : EnumValue.t) :
  v ∈ enum_values_of g cls_iri ↔
  mkTriple (EnumValue._id v) RDF.type cls_iri ∈ g
  ∧ mkTriple (EnumValue._id v) RDF.type OWL.NamedIndividual ∈ g
  ∧ EnumValue.varname v
    = default (remove_common_prefix (EnumValue._id v) [cls_iri])
              (value g (EnumValue._id v) RDFS.label)
  ∧ EnumValue.comment v
    = default "" (value g (EnumValue._id v) RDFS.comment).
Proof.
  unfold enum_values_of. rewrite list_elem_of_fmap.
  setoid_rewrite list_elem_of_filter. setoid_rewrite elem_of_subjects. split.
  - intros (x & -> & H1 & H2). simpl. done.
  - intros (H1 & H2 & H3 & H4). exists (EnumValue._id v).
    split; [| done]. destruct v. simpl in *. by subst.
Qed.

Lemma enum_values_of_nonempty (g : Graph) (cls_iri : string) :
  enum_values_of g cls_iri ≠ [] ↔
  ∃ v, mkTriple v RDF.type cls_iri ∈ g
       ∧ mkTriple v RDF.type OWL.NamedIndividual ∈ g.
Proof.
  split.
  - destruct (enum_values_of g cls_iri) as [|v vs] eqn:E; [done |].
    intros _. exists (EnumValue._id v).
    assert (v ∈ enum_values_of g cls_iri) as Hv by (rewrite E; left).
    apply elem_of_enum_values_of in Hv as (H1 & H2 & _). done.
  - intros (v & H1 & H2) Hnil.
    apply (elem_of_nil
             (EnumValue.mk v
                (default (remove_common_prefix v [cls_iri])
                         (value g v RDFS.label))
                (default "" (value g v RDFS.comment)))).
    rewrite <- Hnil. by apply elem_of_enum_values_of.
Qed.

Lemma classify_members (g : Graph) (x : string) (l : list string) :
  ∀ st,
    (x ∈ enum_iris (foldl (classify_step compact g) st l)
     ↔ x ∈ enum_iris st ∨ (x ∈ l ∧ enum_values_of g x ≠ []))
    ∧ (x ∈ class_iris (foldl (classify_step compact g) st l)
       ↔ x ∈ class_iris st ∨ (x ∈ l ∧ enum_values_of g x = [])).
Proof.
  induction l as [|y l IH]; intros st; simpl.
  - setoid_rewrite elem_of_nil. tauto.
  - destruct (IH (classify_step compact g st y)) as [-> ->].
    setoid_rewrite elem_of_cons. unfold classify_step.
    destruct (enum_values_of g y) as [|v vs] eqn:E.
    + simpl. rewrite elem_of_union, elem_of_singleton. split.
      * split; [intros [?|[? ?]]; auto |].
        intros [?|[[->|?] ?]]; auto. by rewrite E in *.
      * split; [intros [[->|?]|[? ?]]; auto |].
        intros [?|[[->|?] ?]]; auto.
    + destruct (get_class_name compact (sp_compact_ids st) y)
        as [clsname ids].
      simpl. rewrite elem_of_union, elem_of_singleton. split.
      * split; [intros [[->|?]|[? ?]]; auto |].
        -- right. split; [by left |]. by rewrite E.
        -- intros [?|[[->|?] ?]]; auto.
      * split; [intros [?|[? ?]]; auto |].
        intros [?|[[->|?] ?]]; auto. by rewrite E in *.
Qed.

Lemma classify_enum_ids (g : Graph) (x : string) :
  x ∈ enum_iris (classify compact g)
  ↔ x ∈ Enum._id <$> sp_enums (classify compact g).
Proof.
  unfold classify. apply foldl_inv.
  - intros st y Hst. unfold classify_step.
    destruct (enum_values_of g y) as [|v vs]; [done |].
    destruct (get_class_name compact (sp_compact_ids st) y)
      as [clsname ids].
    simpl. rewrite elem_of_union, elem_of_singleton, fmap_app, elem_of_app.
    simpl. rewrite list_elem_of_singleton. tauto.
  - simpl. split; [by intros ?%elem_of_empty | by intros ?%elem_of_nil].
Qed.

(** X10: a declared class is treated as an enumeration exactly when the
    graph has an instance of it that is also asserted to be a named
    individual, and as a structural class exactly when it has none. *)
Theorem classes_split_by_named_individuals (g : Graph) (x : string) :
  (x ∈ enum_iris (classify compact g)
   ↔ mkTriple x RDF.type OWL.Class ∈ g
     ∧ ∃ v, mkTriple v RDF.type x ∈ g
            ∧ mkTriple v RDF.type OWL.NamedIndividual ∈ g)
  ∧ (x ∈ class_iris (classify compact g)
     ↔ mkTriple x RDF.type OWL.Class ∈ g
       ∧ ¬ ∃ v, mkTriple v RDF.type x ∈ g
                ∧ mkTriple v RDF.type OWL.NamedIndividual ∈ g).
Proof.
  unfold classify.
  destruct (classify_members g x (subjects g RDF.type OWL.Class)
              (mkSplit ∅ [] ∅ ∅)) as [-> ->].
  simpl. rewrite elem_of_subjects, <- enum_values_of_nonempty. split.
  - split; [intros [?%elem_of_empty|?]; done | by right].
  - split.
    + intros [?%elem_of_empty|[? ->]]; [done |]. split; [done | by intros ?].
    + intros [? Hnone]. right. split; [done |].
      destruct (enum_values_of g x); [done |]. by destruct Hnone.
Qed.

Lemma le_by_total {A} (key : A → string) : Total (le_by key).
Proof. intros x y. apply (total String.le). Qed.

(** X11: the enumerations of a returned model are sorted ascending by
    id, and their ids are exactly the ids classified as enumerations. *)
Theorem enums_sorted_and_complete (fuel : nat) (g : Graph) (m : Model.t) :
  Model_init falsy_value compact py_int set_iter fuel g = Return m →
  Sorted (le_by Enum._id) (Model.enums m)
  ∧ ∀ x, x ∈ Enum._id <$> Model.enums m ↔ x ∈ enum_iris (classify compact g).
Proof.
  intros (_ & _ & _ & ->)%Model_init_described. split.
  - apply Sorted_merge_sort, le_by_total.
  - intros x. by rewrite merge_sort_Permutation, classify_enum_ids.
Qed.

(** X12: every enumeration of a returned model has at least one value;
    its values are sorted ascending by id, and their ids are exactly the
    named individuals that the graph types with the enumeration. *)
Theorem enum_values_are_named_individuals (fuel : nat) (g : Graph)
    (m : Model.t) :
  Model_init falsy_value compact py_int set_iter fuel g = Return m →
  ∀ e, e ∈ Model.enums m →
    Enum.values e ≠ []
    ∧ Sorted (le_by EnumValue._id) (Enum.values e)
    ∧ ∀ v, v ∈ EnumValue._id <$> Enum.values e
           ↔ mkTriple v RDF.type (Enum._id e) ∈ g
             ∧ mkTriple v RDF.type OWL.NamedIndividual ∈ g.
Proof.
  intros (_ & _ & Hen & _)%Model_init_described e He.
  destruct (Hen e He) as ((_ & _ & -> & Hne) & _). split; [| split].
  - intros Hnil. apply Hne. apply Permutation_nil_r.
    by rewrite <- Hnil, merge_sort_Permutation.
  - apply Sorted_merge_sort, le_by_total.
  - intros v. rewrite merge_sort_Permutation, list_elem_of_fmap. split.
    + intros (ev & -> & (H1 & H2 & _)%elem_of_enum_values_of). done.
    + intros [H1 H2].
      exists (EnumValue.mk v
                (default (remove_common_prefix v [Enum._id e])
                         (value g v RDFS.label))
                (default "" (value g v RDFS.comment))).
      split; [done |]. by apply elem_of_enum_values_of.
Qed.

(** X13: the name of an enumeration value is its [rdfs:label] when the
    graph has one, and otherwise what remains of the value's id after
    its common prefix with the enumeration's id; its comment is the
    [rdfs:comment], or the empty string. *)
Theorem enum_value_names (fuel : nat) (g : Graph) (m : Model.t) :
  Model_init falsy_value compact py_int set_iter fuel g = Return m →
  ∀ e v, e ∈ Model.enums m → v ∈ Enum.values e →
    EnumValue.varname v
    = default (remove_common_prefix (EnumValue._id v) [Enum._id e])
              (value g (EnumValue._id v) RDFS.label)
    ∧ EnumValue.comment v
      = default "" (value g (EnumValue._id v) RDFS.comment).
Proof.
  intros (_ & _ & Hen & _)%Model_init_described e v He Hv.
  destruct (Hen e He) as ((_ & _ & Hvals & _) & _).
  rewrite Hvals, merge_sort_Permutation in Hv.
  by apply elem_of_enum_values_of in Hv as (_ & _ & H1 & H2).
Qed.

End Enumerations.

(** ** The errors of the construction *)

Section Errors.

Context (falsy_value : string → bool)
        (compact : string → string)
        (py_int : string → option Z)
        (set_iter : gset string → list string).

(** Iterating a set visits each of its elements once. *)
Hypothesis set_iter_perm : ∀ X, set_iter X ≡ₚ elements X.

Lemma truthy_None (g : Graph) (s p : string) :
  truthy falsy_value (value g s p) = None → asserts_none falsy_value g s p.
Proof. apply truthy_None_asserts. Qed.

Lemma resolve_range_fault (g : Graph) (enum_iris class_iris : gset string)
    (obj_prop prop : string) (p : Property.t) (e : exn) :
  value g obj_prop SH.path = Some prop →
  resolve_range falsy_value g enum_iris class_iris obj_prop prop p = Raise e →
  shape_fault falsy_value py_int g enum_iris class_iris obj_prop e.
Proof.
  intros Hpath. unfold resolve_range.
  destruct (truthy falsy_value (value g obj_prop SH.class)) as [r|] eqn:E1.
  { apply truthy_Some_asserts in E1. repeat case_decide; try done.
    intros [= <-]. simpl. done. }
  destruct (truthy falsy_value (value g obj_prop SH.datatype)) as [r|] eqn:E2.
  { by destruct (truthy falsy_value (value g obj_prop SH.pattern)). }
  destruct (truthy falsy_value (value g prop RDFS.range)) as [r|] eqn:E3.
  { by repeat case_decide. }
  intros [= <-]. simpl. split; [done |]. by repeat split; apply truthy_None.
Qed.

Lemma int_val_Raise (v : option string) (e : exn) :
  int_val falsy_value py_int v = Raise e →
  e = ValueError ∧ ∃ x, truthy falsy_value v = Some x ∧ py_int x = None.
Proof.
  unfold int_val. destruct (truthy falsy_value v) as [x|]; [| done].
  destruct (py_int x) eqn:E; [done |]. intros [= <-]. eauto.
Qed.

Lemma build_property_fault (g : Graph) (enum_iris class_iris : gset string)
    (cls_iri : string) (st : list Property.t * gmap string string)
    (obj_prop : string) (e : exn) :
  build_property falsy_value compact py_int g enum_iris class_iris cls_iri st obj_prop
  = Raise e →
  shape_fault falsy_value py_int g enum_iris class_iris obj_prop e.
Proof.
  destruct st as [properties ids]. unfold build_property.
  destruct (value g obj_prop SH.path) as [prop|] eqn:Hpath;
    [| by intros [= <-]].
  destruct (get_compact_id compact ids prop _) as [dflt ids1].
  intros [(-> & x & Hx & Hnone)%int_val_Raise|(max_count & _ & H)]%bind_Raise.
  { simpl. eauto. }
  apply bind_Raise in H
    as [(-> & x & Hx & Hnone)%int_val_Raise|(min_count & _ & H)].
  { simpl. eauto. }
  apply bind_Raise in H as [H|(p & _ & H)]; [| done].
  by eapply resolve_range_fault.
Qed.

(** Whatever the construction raises comes from one structural class:
    from its referenceable value or from one of its property shapes. *)
Lemma Model_init_Raise (fuel : nat) (g : Graph) (e : exn) :
  Model_init falsy_value compact py_int set_iter fuel g = Raise e →
  ∃ cls, cls ∈ class_iris (classify compact g)
    ∧ ((e = UnknownReferenceable cls
              (default "optional" (value g cls SPDXS.referenceable))
        ∧ default "optional" (value g cls SPDXS.referenceable)
          ∉ valid_refable)
       ∨ ∃ s, s ∈ objects g cls SH.property
              ∧ shape_fault falsy_value py_int g (enum_iris (classify compact g))
                            (class_iris (classify compact g)) s e).
Proof.
  unfold Model_init.
  intros [Hp|([[ids en] cs] & _ & H)]%bind_Raise.
  2:{ apply bind_Raise in H as [H|(? & _ & H)]; [| done].
      by apply order_loop_no_raise in H. }
  unfold prepare in Hp. set (sp := classify compact g) in *.
  apply bind_Raise in Hp as [Hb|(b & Hb & H)].
  - apply for_each_Raise in Hb as (cls & st & Hcls & Hb).
    exists cls. split.
    { apply elem_of_elements. by rewrite <- set_iter_perm. }
    unfold build_class in Hb.
    destruct (get_class_name compact (bl_compact_ids st) cls)
      as [clsname ids].
    cbn [Class.refable Class._id] in Hb.
    case_decide as Hbad; [left; by injection Hb as <- |].
    apply bind_Raise in Hb as [Hloop|([properties ids'] & _ & H)]; [| done].
    apply for_each_Raise in Hloop as (s & st1 & Hs & Hp).
    right. exists s. split; [done |]. by eapply build_property_fault.
  - exfalso.
    apply bind_Raise in H as [H|(? & _ & H)]; [| done].
    apply build_classes_spec in Hb as (Hids & Hbuilt & Hby).
    2:{ rewrite set_iter_perm. apply NoDup_elements. }
    unfold link_derived in H.
    apply for_each_Raise in H as (c & store & Hc & H).
    apply for_each_Raise in H as (p & store' & Hp & H).
    unfold add_derived in H.
    destruct (classes_by_iri b !! p) as [i|] eqn:Hi; [done |].
    pose proof (proj1 (Forall_forall _ _) Hbuilt c Hc) as (Hpar & _).
    rewrite Hpar in Hp. apply list_elem_of_filter in Hp as [Hp _].
    apply elem_of_elements in Hp. rewrite <- set_iter_perm in Hp.
    apply list_elem_of_lookup in Hp as [j Hj].
    apply Hby in Hj. congruence.
Qed.

(** X14: the lookup of a parent in [classes_by_iri] never fails: the
    construction never raises [KeyError]. *)
Theorem construction_never_raises_KeyError (fuel : nat) (g : Graph)
    (k : string) :
  Model_init falsy_value compact py_int set_iter fuel g ≠ Raise (KeyError k).
Proof.
  intros (cls & _ & [[? _]|(s & _ & H)])%Model_init_Raise; done.
Qed.

(** X15: each range error names a real fault.  "Missing range" for a
    path is raised only when some property shape of a structural class
    has that path and neither a truthy class restriction, nor a
    truthy datatype restriction, nor a truthy range on the path;
    "unknown class restriction" only when some shape has that path and
    a truthy class restriction that is neither a known enumeration
    nor a known structural class. *)
Theorem range_errors_have_a_cause (fuel : nat) (g : Graph) :
  (∀ prop,
     Model_init falsy_value compact py_int set_iter fuel g = Raise (MissingRange prop) →
     ∃ cls s, cls ∈ class_iris (classify compact g)
       ∧ s ∈ objects g cls SH.property
       ∧ value g s SH.path = Some prop
       ∧ asserts_none falsy_value g s SH.class ∧ asserts_none falsy_value g s SH.datatype
       ∧ asserts_none falsy_value g prop RDFS.range)
  ∧ (∀ prop r,
       Model_init falsy_value compact py_int set_iter fuel g
       = Raise (UnknownClassRestriction prop r) →
       ∃ cls s, cls ∈ class_iris (classify compact g)
         ∧ s ∈ objects g cls SH.property
         ∧ value g s SH.path = Some prop
         ∧ asserts falsy_value g s SH.class r
         ∧ (r ∉ enum_iris (classify compact g))
         ∧ (r ∉ class_iris (classify compact g))).
Proof.
  split.
  - intros prop (cls & Hcls & [[? _]|(s & Hs & H)])%Model_init_Raise;
      [done |].
    exists cls, s. simpl in H. tauto.
  - intros prop r (cls & Hcls & [[? _]|(s & Hs & H)])%Model_init_Raise;
      [done |].
    exists cls, s. simpl in H. tauto.
Qed.

(** X16: a property shape without [sh:path] on a structural class makes
    the construction fail: no model is returned, whatever else the shape
    provides.  Conversely [TypeError] is raised only for such a shape,
    and [ValueError] only for a shape whose truthy maximum or minimum
    count does not parse as an integer. *)
Theorem builtin_errors_have_a_cause (g : Graph) :
  ((∃ cls s, cls ∈ class_iris (classify compact g)
             ∧ s ∈ objects g cls SH.property
             ∧ value g s SH.path = None) →
   ∀ fuel m, Model_init falsy_value compact py_int set_iter fuel g ≠ Return m)
  ∧ (∀ fuel, Model_init falsy_value compact py_int set_iter fuel g = Raise TypeError →
       ∃ cls s, cls ∈ class_iris (classify compact g)
                ∧ s ∈ objects g cls SH.property
                ∧ value g s SH.path = None)
  ∧ (∀ fuel, Model_init falsy_value compact py_int set_iter fuel g = Raise ValueError →
       ∃ cls s v, cls ∈ class_iris (classify compact g)
                  ∧ s ∈ objects g cls SH.property
                  ∧ (truthy falsy_value (value g s SH.maxCount) = Some v
                     ∨ truthy falsy_value (value g s SH.minCount) = Some v)
                  ∧ py_int v = None).
Proof.
  split; [| split].
  - intros (cls & s & Hcls & Hs & Hnone) fuel m Hm.
    pose proof (Model_init_ok _ _ _ _ set_iter_perm _ _ _ Hm) as (Hok & _).
    apply (classes_ok_by_id _ _ _ cls Hok) in Hcls as (c & Hc & <-).
    apply Model_init_described in Hm as (_ & Hdesc & _).
    destruct (Hdesc c Hc) as ((_ & _ & _ & Hshapes) & _).
    apply list_elem_of_lookup in Hs as [i Hi].
    destruct (Forall2_lookup_l _ _ _ _ _ Hshapes Hi) as (p & _ & Hp & _).
    congruence.
  - intros fuel (cls & Hcls & [[? _]|(s & Hs & H)])%Model_init_Raise;
      [done |].
    by exists cls, s.
  - intros fuel (cls & Hcls & [[? _]|(s & Hs & v & H1 & H2)])%Model_init_Raise;
      [done |].
    by exists cls, s, v.
Qed.

End Errors.

(** ** Lists already in dependency order *)

Section Ordered.

Context (falsy_value : string → bool)
        (compact : string → string)
        (py_int : string → option Z)
        (set_iter : gset string → list string).

Hypothesis set_iter_perm : ∀ X, set_iter X ≡ₚ elements X.

Lemma order_loop_ordered (tmp : list Class.t) :
  ∀ fuel done_ids out,
    length tmp ≤ fuel →
    (∀ p, p ∈ done_ids ↔ ∃ d, d ∈ out ∧ Class._id d = p) →
    parents_first (out ++ tmp) →
    order_loop fuel tmp done_ids out = Return (out ++ tmp).
Proof.
  induction tmp as [|c tmp IH]; intros fuel done_ids out Hfuel Hdone Hfirst.
  - rewrite app_nil_r. by destruct fuel.
  - destruct fuel as [|fuel]; [simpl in Hfuel; lia |].
    rewrite order_loop_ready.
    + replace (out ++ c :: tmp) with ((out ++ [c]) ++ tmp)
        by (by rewrite <- app_assoc).
      apply IH.
      * simpl in Hfuel. lia.
      * intros p. rewrite elem_of_union, elem_of_singleton, Hdone. split.
        -- intros [->|(d & Hd & Hid)].
           ++ exists c. split; [| done]. apply elem_of_app. right. left.
           ++ exists d. split; [| done]. apply elem_of_app. by left.
        -- intros (d & [Hd| ->%list_elem_of_singleton]%elem_of_app & Hid);
             [right; eauto | by left].
      * by rewrite <- app_assoc.
    + intros p Hp. apply Hdone.
      destruct (Hfirst (length out) c p) as (j & d & Hj & Hd & Hid);
        [by rewrite list_lookup_middle | done |].
      rewrite lookup_app_l in Hd by done.
      exists d. split; [by eapply list_elem_of_lookup_2 | done].
Qed.

(** X17: the loop starts from the class list sorted ascending by id,
    and when that list already has every parent before its children
    (for instance when no class has a parent) the loop leaves it as it
    is, in one pass: the model lists the classes ascending by id. *)
Theorem sorted_order_is_kept (g : Graph) (ids : gmap string string)
    (en : list Enum.t) (cs : list Class.t) :
  prepare falsy_value compact py_int set_iter g = Return (ids, en, cs) →
  Sorted (le_by Class._id) cs
  ∧ (parents_first cs →
     ∀ fuel, length cs ≤ fuel →
       Model_init falsy_value compact py_int set_iter fuel g
       = Return (Model.mk ids en cs)).
Proof.
  intros Hprep. split.
  - by apply (prepare_ok _ _ _ _ set_iter_perm) in Hprep as (_ & _ & H).
  - intros Hfirst fuel Hfuel. unfold Model_init. rewrite Hprep. simpl.
    rewrite (order_loop_ordered cs fuel ∅ []); try done.
    intros p. split; [by intros ?%elem_of_empty |].
    intros (d & Hd & _). by apply elem_of_nil in Hd.
Qed.

End Ordered.

(** ** The further properties on the sample inputs *)

Lemma class_names_are_compacted_witness :
  (∀ c, c ∈ Model.classes model_shapes →
     Class.clsname c = replace_char ":" "_" (ex_compact (Class._id c))
     ∧ ":"%char ∉ list_ascii_of_string (Class.clsname c))
  ∧ (∀ e, e ∈ Model.enums model_shapes →
       Enum.clsname e = replace_char ":" "_" (ex_compact (Enum._id e))
       ∧ ":"%char ∉ list_ascii_of_string (Enum.clsname e)).
Proof.
  apply (class_names_are_compacted ex_falsy ex_compact ex_int ex_iter 2 graph_shapes).
  exact model_shapes_returned.
Defined.

Lemma model_cache_holds_compactions_witness :
  cache_ok ex_compact (Model.compact_ids model_shapes)
  ∧ (∀ c, c ∈ Model.classes model_shapes →
       Model.compact_ids model_shapes !! Class._id c
       = Some (ex_compact (Class._id c))
       ∧ ∀ p, p ∈ Class.properties c →
           Model.compact_ids model_shapes !! Property.path p
           = Some (ex_compact (Property.path p)))
  ∧ (∀ e, e ∈ Model.enums model_shapes →
       Model.compact_ids model_shapes !! Enum._id e
       = Some (ex_compact (Enum._id e))).
Proof.
  apply (model_cache_holds_compactions ex_falsy ex_compact ex_int ex_iter 2
           graph_shapes).
  exact model_shapes_returned.
Defined.

Lemma properties_follow_shapes_witness :
  Forall (λ c, Some <$> (Property.path <$> Class.properties c)
               = (λ s, value graph_shapes s SH.path)
                   <$> objects graph_shapes (Class._id c) SH.property)
         (Model.classes model_shapes).
Proof.
  apply Forall_forall.
  apply (properties_follow_shapes ex_falsy ex_compact ex_int ex_iter 2 graph_shapes).
  exact model_shapes_returned.
Defined.

Lemma property_names_witness :
  Forall (λ c,
            Forall2 (λ s p,
                       Property.varname p
                       = match value graph_shapes s SH.name with
                         | Some n => n
                         | None =>
                             if decide (ex_compact (Property.path p)
                                        = Property.path p)
                             then remove_common_prefix (Property.path p)
                                                       [Class._id c]
                             else ex_compact (Property.path p)
                         end)
                    (objects graph_shapes (Class._id c) SH.property)
                    (Class.properties c))
         (Model.classes model_shapes).
Proof.
  apply Forall_forall.
  apply (property_names ex_falsy ex_compact ex_int ex_iter 2 graph_shapes).
  exact model_shapes_returned.
Defined.

Lemma property_counts_witness :
  Forall (λ c,
            Forall2 (λ s p,
                       (asserts_none ex_falsy graph_counts s SH.maxCount →
                        Property.max_count p = None)
                       ∧ (∀ v, asserts ex_falsy graph_counts s SH.maxCount v →
                            ∃ n, ex_int v = Some n
                                 ∧ Property.max_count p = Some n)
                       ∧ (asserts_none ex_falsy graph_counts s SH.minCount →
                          Property.min_count p = None)
                       ∧ (∀ v, asserts ex_falsy graph_counts s SH.minCount v →
                            ∃ n, ex_int v = Some n
                                 ∧ Property.min_count p = Some n))
                    (objects graph_counts (Class._id c) SH.property)
                    (Class.properties c))
         (Model.classes model_counts)
  ∧ (λ c, (λ p, (Property.min_count p, Property.max_count p))
            <$> Class.properties c) <$> Model.classes model_counts
    = [[(None, Some 1%Z)]].
Proof.
  split; [| vm_compute; reflexivity].
  apply Forall_forall.
  apply (property_counts ex_falsy ex_compact ex_int ex_iter 1 graph_counts).
  vm_compute. reflexivity.
Defined.

Lemma comments_and_id_property_witness :
  Forall (λ c,
            Class.comment c
            = default "" (value graph_shapes (Class._id c) RDFS.comment)
            ∧ Class.id_property c
              = value graph_shapes (Class._id c) SPDXS.idPropertyName
            ∧ ∀ p, p ∈ Class.properties c →
                Property.comment p
                = default "" (value graph_shapes (Property.path p)
                                    RDFS.comment))
         (Model.classes model_shapes).
Proof.
  apply Forall_forall.
  apply (comments_and_id_property ex_falsy ex_compact ex_int ex_iter 2 graph_shapes).
  exact model_shapes_returned.
Defined.

Lemma enums_sorted_and_complete_witness :
  Sorted (le_by Enum._id) (Model.enums model_shapes)
  ∧ ∀ x, x ∈ Enum._id <$> Model.enums model_shapes
         ↔ x ∈ enum_iris (classify ex_compact graph_shapes).
Proof.
  apply (enums_sorted_and_complete ex_falsy ex_compact ex_int ex_iter 2 graph_shapes).
  exact model_shapes_returned.
Defined.

Lemma enum_values_are_named_individuals_witness :
  Forall (λ e,
            Enum.values e ≠ []
            ∧ Sorted (le_by EnumValue._id) (Enum.values e)
            ∧ ∀ v, v ∈ EnumValue._id <$> Enum.values e
                   ↔ mkTriple v RDF.type (Enum._id e) ∈ graph_shapes
                     ∧ mkTriple v RDF.type OWL.NamedIndividual ∈ graph_shapes)
         (Model.enums model_shapes).
Proof.
  apply Forall_forall.
  apply (enum_values_are_named_individuals ex_falsy ex_compact ex_int ex_iter 2
           graph_shapes).
  exact model_shapes_returned.
Defined.

Lemma enum_value_names_witness :
  Forall (λ e,
            Forall (λ v,
                      EnumValue.varname v
                      = default (remove_common_prefix (EnumValue._id v)
                                                      [Enum._id e])
                                (value graph_shapes (EnumValue._id v)
                                       RDFS.label)
                      ∧ EnumValue.comment v
                        = default "" (value graph_shapes (EnumValue._id v)
                                            RDFS.comment))
                   (Enum.values e))
         (Model.enums model_shapes).
Proof.
  apply Forall_forall. intros e He. apply Forall_forall. intros v Hv.
  apply (enum_value_names ex_falsy ex_compact ex_int ex_iter 2 graph_shapes
           model_shapes model_shapes_returned e v He Hv).
Defined.

Lemma construction_never_raises_KeyError_witness :
  (Model_init ex_falsy ex_compact ex_int ex_iter 2 graph_shapes
   ≠ Raise (KeyError "ex:A"))
  ∧ (Model_init ex_falsy ex_compact ex_int ex_iter 1 graph_missing_range
     ≠ Raise (KeyError "ex:A")).
Proof.
  split;
    apply (construction_never_raises_KeyError ex_falsy ex_compact ex_int ex_iter
             ex_iter_perm).
Defined.

Lemma range_errors_have_a_cause_witness :
  (∃ cls s, cls ∈ class_iris (classify ex_compact graph_missing_range)
     ∧ s ∈ objects graph_missing_range cls SH.property
     ∧ value graph_missing_range s SH.path = Some "ex:A/p"
     ∧ asserts_none ex_falsy graph_missing_range s SH.class
     ∧ asserts_none ex_falsy graph_missing_range s SH.datatype
     ∧ asserts_none ex_falsy graph_missing_range "ex:A/p" RDFS.range)
  ∧ (∃ cls s, cls ∈ class_iris (classify ex_compact graph_zero_only)
       ∧ s ∈ objects graph_zero_only cls SH.property
       ∧ value graph_zero_only s SH.path = Some "ex:A/p"
       ∧ asserts_none ex_falsy graph_zero_only s SH.class
       ∧ asserts_none ex_falsy graph_zero_only s SH.datatype
       ∧ asserts_none ex_falsy graph_zero_only "ex:A/p" RDFS.range).
Proof.
  split.
  - apply (proj1 (range_errors_have_a_cause ex_falsy ex_compact ex_int ex_iter
                    ex_iter_perm 1 graph_missing_range)).
    vm_compute. reflexivity.
  - apply (proj1 (range_errors_have_a_cause ex_falsy ex_compact ex_int ex_iter
                    ex_iter_perm 1 graph_zero_only)).
    vm_compute. reflexivity.
Defined.

Lemma builtin_errors_have_a_cause_witness :
  (∀ fuel m, Model_init ex_falsy ex_compact ex_int ex_iter fuel graph_no_path
             ≠ Return m)
  ∧ ∃ cls s, cls ∈ class_iris (classify ex_compact graph_no_path)
             ∧ s ∈ objects graph_no_path cls SH.property
             ∧ value graph_no_path s SH.path = None.
Proof.
  pose proof (builtin_errors_have_a_cause ex_falsy ex_compact ex_int ex_iter
                ex_iter_perm graph_no_path) as (H1 & H2 & _).
  split.
  - apply H1. exists "ex:A", "_:s1". repeat split; compute_done.
  - apply (H2 1). vm_compute. reflexivity.
Defined.

Lemma prepared_shapes_first : parents_first prepared_shapes.2.
Proof.
  apply (order_loop_sound 2 prepared_shapes.2 ∅ [] prepared_shapes.2).
  - vm_compute. reflexivity.
  - intros p. split; [by intros ?%elem_of_empty |].
    intros (d & Hd & _). by apply elem_of_nil in Hd.
  - intros i c p Hi. by rewrite lookup_nil in Hi.
Defined.

Lemma sorted_order_is_kept_witness :
  Sorted (le_by Class._id) prepared_shapes.2
  ∧ (∀ fuel, 2 ≤ fuel →
       Model_init ex_falsy ex_compact ex_int ex_iter fuel graph_shapes
       = Return (Model.mk prepared_shapes.1.1 prepared_shapes.1.2
                          prepared_shapes.2)).
Proof.
  pose proof (sorted_order_is_kept ex_falsy ex_compact ex_int ex_iter ex_iter_perm
                graph_shapes prepared_shapes.1.1 prepared_shapes.1.2
                prepared_shapes.2 ltac:(vm_compute; reflexivity)) as [H1 H2].
  split; [exact H1 |]. intros fuel Hfuel.
  apply (H2 prepared_shapes_first). exact Hfuel.
Defined.

(** ** Parents and derived classes of the returned model *)

Section Hierarchy.

Context (falsy_value : string → bool)
        (compact : string → string)
        (py_int : string → option Z)
        (set_iter : gset string → list string).

Hypothesis set_iter_perm : ∀ X, set_iter X ≡ₚ elements X.

Lemma prepare_derived_ids (g : Graph) (ids : gmap string string)
    (en : list Enum.t) (cs : list Class.t) :
  prepare falsy_value compact py_int set_iter g = Return (ids, en, cs) →
  ∀ d x, d ∈ cs → x ∈ Class.derived_ids d →
         x ∈ class_iris (classify compact g).
Proof.
  unfold prepare. set (sp := classify compact g).
  intros (b & Hb & H)%bind_Return.
  apply bind_Return in H as (cls1 & Hlink & H). injection H as _ _ <-.
  intros d x Hd Hx. rewrite merge_sort_Permutation in Hd.
  apply list_elem_of_fmap in Hd as (d1 & -> & [i Hi]%list_elem_of_lookup).
  cbn in Hx. rewrite merge_sort_Permutation in Hx.
  apply build_classes_spec in Hb as (Hids & Hbuilt & _).
  2:{ rewrite set_iter_perm. apply NoDup_elements. }
  apply link_derived_linked in Hlink as [_ Hst].
  destruct (Hst i d1 Hi) as (d0 & Hd0 & _ & Hmem).
  destruct (proj1 (Hmem x) Hx)
    as [Hx0|(p & (c0 & Hc0 & -> & _)%elem_of_edges & _)].
  - pose proof (proj1 (Forall_forall _ _) Hbuilt d0
                  (list_elem_of_lookup_2 _ _ _ Hd0)) as (_ & Hnil & _).
    rewrite Hnil in Hx0. by apply elem_of_nil in Hx0.
  - apply elem_of_elements. rewrite <- set_iter_perm, <- Hids.
    by apply list_elem_of_fmap_2.
Qed.

(** X18: in a returned model the parent ids of a class are the declared
    superclasses of the class that are structural classes themselves, in
    the order the graph gives them (a superclass that is an enumeration
    or is not declared a class is left out without error), and each is
    the id of a class of the model. *)
Theorem parent_ids_are_structural_superclasses (fuel : nat) (g : Graph)
    (m : Model.t) :
  Model_init falsy_value compact py_int set_iter fuel g = Return m →
  ∀ c, c ∈ Model.classes m →
    Class.parent_ids c
    = filter (λ p, p ∈ class_iris (classify compact g))
             (objects g (Class._id c) RDFS.subClassOf)
    ∧ ∀ p, p ∈ Class.parent_ids c →
        mkTriple (Class._id c) RDFS.subClassOf p ∈ g
        ∧ ∃ d, d ∈ Model.classes m ∧ Class._id d = p.
Proof.
  intros (Hok & _)%(Model_init_ok _ _ _ _ set_iter_perm) c Hc.
  pose proof Hok as (_ & Hall & _).
  pose proof (proj1 (Forall_forall _ _) Hall c Hc) as (Hpar & _).
  split; [done |]. intros p. rewrite Hpar.
  intros [Hp Hobj]%list_elem_of_filter.
  split; [by apply elem_of_objects |].
  by apply (classes_ok_by_id _ _ _ p Hok).
Qed.

(** X19: in a returned model every derived id of a class is the id of a
    class of the model, and that class lists the first one as a
    parent: no derived id dangles. *)
Theorem derived_ids_are_model_classes (fuel : nat) (g : Graph)
    (m : Model.t) :
  Model_init falsy_value compact py_int set_iter fuel g = Return m →
  ∀ d x, d ∈ Model.classes m → x ∈ Class.derived_ids d →
    ∃ c, c ∈ Model.classes m ∧ Class._id c = x
         ∧ Class._id d ∈ Class.parent_ids c.
Proof.
  intros Hm d x Hd Hx.
  pose proof (Model_init_ok _ _ _ _ set_iter_perm _ _ _ Hm)
    as (Hok & _ & _ & cs & Hprep & Hperm).
  assert (x ∈ class_iris (classify compact g)) as Hcls.
  { eapply prepare_derived_ids; [exact Hprep | | exact Hx].
    by rewrite <- Hperm. }
  apply (classes_ok_by_id _ _ _ x Hok) in Hcls as (c & Hc & <-).
  exists c. split; [done |]. split; [done |].
  destruct Hok as (_ & _ & Hinv). by apply Hinv.
Qed.

(** X20: a graph that declares no class gives the empty model, with an
    empty cache, for any amount of fuel. *)
Theorem no_declared_class_empty_model (fuel : nat) (g : Graph) :
  (∀ x, mkTriple x RDF.type OWL.Class ∉ g) →
  Model_init falsy_value compact py_int set_iter fuel g = Return (Model.mk ∅ [] []).
Proof.
  intros Hnone.
  assert (subjects g RDF.type OWL.Class = []) as Hsub.
  { destruct (subjects g RDF.type OWL.Class) as [|x l] eqn:E; [done |].
    destruct (Hnone x). apply elem_of_subjects. rewrite E. left. }
  unfold Model_init, prepare, build_classes, classify. rewrite Hsub. simpl.
  assert (set_iter ∅ = []) as ->.
  { apply Permutation_nil_r. by rewrite set_iter_perm, elements_empty. }
  simpl. by destruct fuel.
Qed.

End Hierarchy.

Lemma parent_ids_are_structural_superclasses_witness :
  Forall (λ c,
            Class.parent_ids c
            = filter (λ p, p ∈ class_iris (classify ex_compact graph_shapes))
                     (objects graph_shapes (Class._id c) RDFS.subClassOf)
            ∧ ∀ p, p ∈ Class.parent_ids c →
                mkTriple (Class._id c) RDFS.subClassOf p ∈ graph_shapes
                ∧ ∃ d, d ∈ Model.classes model_shapes ∧ Class._id d = p)
         (Model.classes model_shapes).
Proof.
  apply Forall_forall.
  apply (parent_ids_are_structural_superclasses ex_falsy ex_compact ex_int ex_iter
           ex_iter_perm 2 graph_shapes).
  exact model_shapes_returned.
Defined.

Lemma derived_ids_are_model_classes_witness :
  Forall (λ d,
            Forall (λ x, ∃ c, c ∈ Model.classes model_shapes
                              ∧ Class._id c = x
                              ∧ Class._id d ∈ Class.parent_ids c)
                   (Class.derived_ids d))
         (Model.classes model_shapes).
Proof.
  apply Forall_forall. intros d Hd. apply Forall_forall. intros x Hx.
  apply (derived_ids_are_model_classes ex_falsy ex_compact ex_int ex_iter ex_iter_perm
           2 graph_shapes model_shapes model_shapes_returned d x Hd Hx).
Defined.

Lemma no_declared_class_empty_model_witness :
  Model_init ex_falsy ex_compact ex_int ex_iter 0
    [mkTriple "ex:red" RDF.type "ex:Color";
     mkTriple "ex:A" RDFS.subClassOf "ex:B"]
  = Return (Model.mk ∅ [] []).
Proof.
  apply (no_declared_class_empty_model ex_falsy ex_compact ex_int ex_iter ex_iter_perm).
  intros x Hx. apply list_elem_of_In in Hx. cbv in Hx.
  repeat (destruct Hx as [Hx|Hx]; [discriminate Hx |]). done.
Defined.
